(** * Vertiport layout model (src/vertiport_model.py)

    The script builds one mixed-integer linear program over a 5 x 8 grid,
    hands it to an external solver and, when the solver reports an optimal
    solution, decodes the solution into a grid of labels, per-type counts
    and the money used.

    The embedding follows the script top to bottom.  A solver solution is a
    record of the values ([.X]) of the five families of variables; every
    [model.addConstr] call becomes one row, evaluated at a solution, in the
    order in which the script posts it.  Values of variables are exact
    rationals; the solver's numerical tolerances are outside the model. *)

From Stdlib Require Import ZArith QArith Qfield List Bool Lia Lqa.
From Stdlib Require String.
Import ListNotations.

Local Open Scope Z_scope.

(** ** Grid *)

Definition cell : Type := (Z * Z)%type.

Definition rows : Z := 5.
Definition cols : Z := 8.

(** Python's [range(n)]. *)
Definition range (n : Z) : list Z := map Z.of_nat (seq 0 (Z.to_nat n)).

(** [cells = [(i, j) for i in range(rows) for j in range(cols)]] *)
Definition cells : list cell :=
  flat_map (fun i => map (fun j => (i, j)) (range cols)) (range rows).

(** [abs(a[0] - b[0]) + abs(a[1] - b[1])] *)
Definition manhattan (a b : cell) : Z :=
  Z.abs (fst a - fst b) + Z.abs (snd a - snd b).

Definition cell_eqb (a b : cell) : bool :=
  (fst a =? fst b) && (snd a =? snd b).

(** ** Components and configuration constants *)

Inductive component : Set := F | S | T | P.

Definition components : list component := [F; S; T; P].

Definition component_eqb (c d : component) : bool :=
  match c, d with
  | F, F | S, S | T, T | P, P => true
  | _, _ => false
  end.

Definition cost (c : component) : Z :=
  match c with
  | F => 40000
  | S => 46000
  | T => 40000
  | P => 300000
  end.

Definition fato_capacity : Z := 30.
Definition stand_capacity : Z := 6.
Definition budget : Z := 2000000.
Definition M : Z := 1000.

(** ** Variables

    [place] and [reachable] are created with [vtype=GRB.BINARY];
    [operations], [flow_balance] and [flow] with [vtype=GRB.CONTINUOUS].
    None of the [addVar]/[addVars] calls passes [lb] or [ub], so gurobipy's
    defaults apply: lower bound 0 and no upper bound. *)

Inductive vtype : Set := BINARY | CONTINUOUS.

Record assignment : Type := Assignment {
  place : cell -> component -> Q;
  operations : Q;
  reachable : cell -> Q;
  flow_balance : cell -> Q;
  flow : cell * cell -> Q
}.

(** The index list of [flow]:
    [[(a, b) for a in cells for b in cells if manhattan(a, b) == 1]] *)
Definition flow_keys : list (cell * cell) :=
  flat_map (fun a =>
    map (fun b => (a, b)) (filter (fun b => manhattan a b =? 1) cells)) cells.

(** [(k) in flow]: membership of a key in the tupledict. *)
Definition in_flow_keys (k : cell * cell) : bool :=
  existsb (fun k' => cell_eqb (fst k) (fst k') && cell_eqb (snd k) (snd k'))
          flow_keys.

(** [get_neighbors(i)] *)
Definition get_neighbors (i : cell) : list cell :=
  let '(x, y) := i in
  (if 0 <? x then [(x - 1, y)] else []) ++
  (if x <? rows - 1 then [(x + 1, y)] else []) ++
  (if 0 <? y then [(x, y - 1)] else []) ++
  (if y <? cols - 1 then [(x, y + 1)] else []).

(** The test guarding [place[i, 'F'] == 0]:
    [0 < i[0] < rows - 1 and 0 < i[1] < cols - 1]. *)
Definition interior (i : cell) : bool :=
  (0 <? fst i) && (fst i <? rows - 1) && (0 <? snd i) && (snd i <? cols - 1).

(** [close_cells] of the pad-spacing loop. *)
Definition close_cells (i : cell) : list cell :=
  flat_map (fun dx =>
    flat_map (fun dy =>
      if (Z.abs dx + Z.abs dy <=? 2)
         && (0 <=? fst i + dx) && (fst i + dx <? rows)
         && (0 <=? snd i + dy) && (snd i + dy <? cols)
         && (negb (dx =? 0) || negb (dy =? 0))
      then [(fst i + dx, snd i + dy)] else [])
      [-2; -1; 0; 1; 2])
    [-2; -1; 0; 1; 2].

Definition source : cell := (0, 0).

(** ** Constraints *)

Inductive sense : Set := LE | GE | EQ.

(** One [addConstr] row, with both sides evaluated at a solution. *)
Record constr : Type := Constr { lhs : Q; rel : sense; rhs : Q }.

Local Open Scope Q_scope.

Definition holds (c : constr) : Prop :=
  match rel c with
  | LE => lhs c <= rhs c
  | GE => rhs c <= lhs c
  | EQ => lhs c == rhs c
  end.

Definition holdsb (c : constr) : bool :=
  match rel c with
  | LE => Qle_bool (lhs c) (rhs c)
  | GE => Qle_bool (rhs c) (lhs c)
  | EQ => Qeq_bool (lhs c) (rhs c)
  end.

(** [gp.quicksum] *)
Definition quicksum (l : list Q) : Q := fold_right Qplus 0 l.

Definition in_domain (v : vtype) (x : Q) : Prop :=
  match v with
  | BINARY => x == 0 \/ x == 1
  | CONTINUOUS => 0 <= x
  end.

Definition in_domainb (v : vtype) (x : Q) : bool :=
  match v with
  | BINARY => Qeq_bool x 0 || Qeq_bool x 1
  | CONTINUOUS => Qle_bool 0 x
  end.

(** Every variable of the model with its type, in creation order. *)
Definition variables (a : assignment) : list (vtype * Q) :=
  flat_map (fun i => map (fun c => (BINARY, place a i c)) components) cells
  ++ [(CONTINUOUS, operations a)]
  ++ map (fun i => (BINARY, reachable a i)) cells
  ++ map (fun i => (CONTINUOUS, flow_balance a i)) cells
  ++ map (fun k => (CONTINUOUS, flow a k)) flow_keys.

Definition in_flow (a : assignment) (i : cell) : Q :=
  quicksum (map (fun j => flow a (j, i))
                (filter (fun j => in_flow_keys (j, i)) cells)).

Definition out_flow (a : assignment) (i : cell) : Q :=
  quicksum (map (fun j => flow a (i, j))
                (filter (fun j => in_flow_keys (i, j)) cells)).

(** Lines 48-49: operations cannot exceed FATO or Stand capacity. *)
Definition capacity_constrs (a : assignment) : list constr :=
  [ Constr (operations a) LE
      ((inject_Z fato_capacity / 2)
       * quicksum (map (fun i => place a i F) cells));
    Constr (operations a) LE
      (inject_Z stand_capacity
       * quicksum (map (fun i => place a i S) cells)) ].

(** Line 52: total cost within the budget. *)
Definition budget_constrs (a : assignment) : list constr :=
  [ Constr
      (quicksum (flat_map (fun i =>
         map (fun c => inject_Z (cost c) * place a i c) components) cells))
      LE (inject_Z budget) ].

(** Lines 55-56: only one component per cell. *)
Definition exclusivity_constrs (a : assignment) : list constr :=
  map (fun i =>
    Constr (quicksum (map (fun c => place a i c) components)) LE 1) cells.

(** Lines 69-73: F, S and P next to at least one taxiway. *)
Definition adjacency_constrs (a : assignment) : list constr :=
  flat_map (fun i =>
    let neighbors := get_neighbors i in
    map (fun c =>
      Constr (quicksum (map (fun n => place a n T) neighbors)) GE (place a i c))
      [F; S; P]) cells.

(** Lines 76-83: no FATO in the middle or too close to another. *)
Definition siting_constrs (a : assignment) : list constr :=
  flat_map (fun i =>
    (if interior i then [Constr (place a i F) EQ 0] else [])
    ++ map (fun j =>
         Constr (place a j F) LE ((1 - place a i F) * inject_Z M))
         (close_cells i)) cells.

(** Lines 86-87: the source is reachable. *)
Definition source_constrs (a : assignment) : list constr :=
  [ Constr (reachable a source) EQ 1 ].

(** Lines 90-95: flow balance. *)
Definition balance_constrs (a : assignment) : list constr :=
  flat_map (fun i =>
    [ Constr (flow_balance a i) EQ (out_flow a i - in_flow a i);
      Constr (flow_balance a i) LE (inject_Z M * reachable a i);
      Constr (flow_balance a i) GE (- inject_Z M * reachable a i) ]) cells.

(** Lines 98-99: flow only out of taxiway cells. *)
Definition gating_constrs (a : assignment) : list constr :=
  map (fun k => Constr (flow a k) LE (inject_Z M * place a (fst k) T))
      flow_keys.

Definition constraints (a : assignment) : list constr :=
  capacity_constrs a ++ budget_constrs a ++ exclusivity_constrs a
  ++ adjacency_constrs a ++ siting_constrs a ++ source_constrs a
  ++ balance_constrs a ++ gating_constrs a.

(** A solution is feasible when every variable lies in its domain and every
    posted row holds. *)
Definition feasible (a : assignment) : Prop :=
  Forall (fun v => in_domain (fst v) (snd v)) (variables a)
  /\ Forall holds (constraints a).

Definition feasibleb (a : assignment) : bool :=
  forallb (fun v => in_domainb (fst v) (snd v)) (variables a)
  && forallb holdsb (constraints a).

(** The objective is [operations], maximised. *)
Definition optimal (a : assignment) : Prop :=
  feasible a /\ forall b, feasible b -> operations b <= operations a.

(** ** Solution extraction (lines 105-125) *)

(** A grid entry: ['-'] is [None]. *)
Definition label : Type := option component.

Definition label_eqb (x y : label) : bool :=
  match x, y with
  | None, None => true
  | Some c, Some d => component_eqb c d
  | _, _ => false
  end.

(** [l[n] = x] for a list; the script only indexes with cells of the grid,
    so the out-of-range case (an IndexError in Python) never arises and the
    list is left as it is there. *)
Fixpoint list_set {A : Type} (n : nat) (x : A) (l : list A) : list A :=
  match l, n with
  | [], _ => []
  | _ :: t, O => x :: t
  | h :: t, Datatypes.S m => h :: list_set m x t
  end.

(** [layout[i[0]][i[1]]] *)
Definition grid_get (g : list (list label)) (i : cell) : label :=
  nth (Z.to_nat (snd i)) (nth (Z.to_nat (fst i)) g []) None.

(** [layout[i[0]][i[1]] = x] *)
Definition grid_set (g : list (list label)) (i : cell) (x : label)
  : list (list label) :=
  list_set (Z.to_nat (fst i))
           (list_set (Z.to_nat (snd i)) x (nth (Z.to_nat (fst i)) g [])) g.

(** [count[c] += 1] *)
Definition bump (c : component) (count : component -> Z) : component -> Z :=
  fun d => if component_eqb c d then (count d + 1)%Z else count d.

Record extraction : Type := Extraction {
  layout : list (list label);
  count : component -> Z
}.

(** [count = {'F': 0, 'S': 0, 'T': 0, 'P': 0}] and
    [layout = [['-' for _ in range(cols)] for _ in range(rows)]]:
    the comprehension builds a fresh row each time, so rows do not alias. *)
Definition extraction_init : extraction :=
  {| layout := repeat (repeat None (Z.to_nat cols)) (Z.to_nat rows);
     count := fun _ => 0%Z |}.

(** [place[i, c].X > 0.5] *)
Definition above_half (x : Q) : bool := negb (Qle_bool x (1 # 2)).

(** Body of the inner loop. *)
Definition extract_step (a : assignment) (i : cell)
           (st : extraction) (c : component) : extraction :=
  if above_half (place a i c)
  then {| layout := grid_set (layout st) i (Some c);
          count := bump c (count st) |}
  else st.

(** [for i in ...: for c in components: ...] from a given state. *)
Definition extract_loop (a : assignment) (l : list cell) (st : extraction)
  : extraction :=
  fold_left (fun st i => fold_left (extract_step a i) components st) l st.

(** Lines 107-114: the loop over [cells] from the initial state. *)
Definition extract (a : assignment) : extraction :=
  extract_loop a cells extraction_init.

(** [used_money = sum(cost[c] * count[c] for c in components)] *)
Definition used_money (count : component -> Z) : Z :=
  fold_right Z.add 0%Z (map (fun c => (cost c * count c)%Z) components).

(** The component the extraction finds first at a cell, if any. *)
Definition chosen (a : assignment) (i : cell) : label :=
  find (fun c => above_half (place a i c)) components.

(** A grid of [rows] rows of [cols] labels. *)
Definition well_shaped (g : list (list label)) : Prop :=
  length g = Z.to_nat rows
  /\ forall r, (r < Z.to_nat rows)%nat -> length (nth r g []) = Z.to_nat cols.

(** ** The run: what the script itself prints or writes

    The solver is an external collaborator: [model.optimize()] leaves a
    status code in [model.status] and, when a solution exists, the values
    [.X].  Status codes are gurobipy's integers.  While the model is built
    and solved gurobipy writes a log of its own to the console (the script
    never switches [OutputFlag] off); that log is the solver's output, not
    the script's, and is kept apart below. *)

Definition status : Set := Z.

Definition OPTIMAL : status := 2%Z.
Definition INFEASIBLE : status := 3%Z.
Definition INF_OR_UNBD : status := 4%Z.
Definition UNBOUNDED : status := 5%Z.
Definition TIME_LIMIT : status := 9%Z.

Inductive event : Type :=
| PrintOperations (x : Q)
| PrintGrid (g : list (list label))
| PrintCounts (l : list (component * Z))
| PrintBudget (used limit : Z)
| WriteLayoutCsv (nrows ncols : Z) (g : list (list label))
| WriteSummaryCsv (l : list (component * Z)) (ops : Q) (used limit : Z).

Record outcome : Type := Outcome {
  trace : list event;     (* the script's own prints and file writes of
                             lines 105-143, in order; not the solver's log *)
  exit_code : Z           (* the script falls off its end: 0 *)
}.

(** Lines 105-143: what the script itself emits.  There is no [else]
    branch. *)
Definition report (st : status) (x : assignment) : outcome :=
  if (st =? OPTIMAL)%Z then
    let e := extract x in
    let table := map (fun c => (c, count e c)) components in
    let used := used_money (count e) in
    {| trace := [ PrintOperations (operations x);
                  PrintGrid (layout e);
                  PrintCounts table;
                  PrintBudget used budget;
                  WriteLayoutCsv rows cols (layout e);
                  WriteSummaryCsv table (operations x) used budget ];
       exit_code := 0%Z |}
  else {| trace := []; exit_code := 0%Z |}.

(** What reaches the console: first the lines gurobipy logs up to the end
    of [model.optimize()] (line 102), whatever they are, then the script's
    prints. *)
Inductive console_item : Type :=
| SolverLog (line : String.string)
| ScriptPrint (e : event).

Definition is_print (e : event) : bool :=
  match e with
  | PrintOperations _ | PrintGrid _ | PrintCounts _ | PrintBudget _ _ => true
  | WriteLayoutCsv _ _ _ | WriteSummaryCsv _ _ _ _ => false
  end.

Definition console (log : list String.string) (st : status) (x : assignment)
  : list console_item :=
  map SolverLog log ++ map ScriptPrint (filter is_print (trace (report st x))).

(** The files the script writes: [layout.csv] and [summary.csv]. *)
Definition files (st : status) (x : assignment) : list event :=
  filter (fun e => negb (is_print e)) (trace (report st x)).

(** The solver's contract: status [OPTIMAL] comes with an optimal solution. *)
Definition solver_contract (st : status) (x : assignment) : Prop :=
  st = OPTIMAL -> optimal x.

(** The Layout of a run, when there is one: grid, counts, money used and
    throughput, as printed. *)
Record Layout : Type := MkLayout {
  L_grid : list (list label);
  L_count : component -> Z;
  L_used : Z;
  L_throughput : Q
}.

Definition layout_of (x : assignment) : Layout :=
  let e := extract x in
  {| L_grid := layout e; L_count := count e;
     L_used := used_money (count e); L_throughput := operations x |}.

Definition produced (st : status) (x : assignment) : option Layout :=
  if (st =? OPTIMAL)%Z then Some (layout_of x) else None.

(** ** Connectivity through the taxiway subgraph *)

(** A cell is connected to the source when a walk of grid-adjacent cells
    leads from the source to it whose inner cells all hold a taxiway. *)
Inductive connected (a : assignment) : cell -> Prop :=
| connected_source : connected a source
| connected_step u v :
    connected a u ->
    u = source \/ place a u T == 1 ->
    manhattan u v = 1%Z ->
    connected a v.

(** The four cells around a cell, in or out of the grid. *)
Definition around (v : cell) : list cell :=
  [ (fst v - 1, snd v); (fst v + 1, snd v);
    (fst v, snd v - 1); (fst v, snd v + 1) ]%Z.

(** Can a walk enter [v] from [u]: [u] is the source or a taxiway. *)
Definition passable (a : assignment) (u : cell) : bool :=
  cell_eqb u source || Qeq_bool (place a u T) 1.

(** ** The rim of the grid *)

(** 1 where the extraction sees a pad, 0 elsewhere. *)
Definition pad (a : assignment) (i : cell) : Z :=
  if above_half (place a i F) then 1%Z else 0%Z.

Definition in_grid (i : cell) : bool :=
  ((0 <=? fst i) && (fst i <? rows) && (0 <=? snd i) && (snd i <? cols))%Z.

(** Two different cells of the grid within distance 2. *)
Definition closeb (i j : cell) : bool :=
  in_grid i && in_grid j && negb (cell_eqb i j) && (manhattan i j <=? 2)%Z.

(** The boundary cells, clockwise from the source. *)
Definition rim : list cell :=
  [ (0, 0); (0, 1); (0, 2); (0, 3); (0, 4); (0, 5); (0, 6); (0, 7);
    (1, 7); (2, 7); (3, 7);
    (4, 7); (4, 6); (4, 5); (4, 4); (4, 3); (4, 2); (4, 1); (4, 0);
    (3, 0); (2, 0); (1, 0) ]%Z.

(** ** Sample solutions *)

(** The solution that places the labels of a grid, with no flow at all. *)
Definition of_grid (g : list (list label)) (ops : Q) : assignment :=
  {| place := fun i c => if label_eqb (grid_get g i) (Some c) then 1 else 0;
     operations := ops;
     reachable := fun i => if cell_eqb i source then 1 else 0;
     flow_balance := fun _ => 0;
     flow := fun _ => 0 |}.

Definition l_ : label := None.
Definition lF : label := Some F.
Definition lS : label := Some S.
Definition lT : label := Some T.

(** Seven pads on the rim, eleven taxiways, twenty-two stands. *)
Definition grid_full : list (list label) :=
  [ [lF; lS; lT; lF; lS; lT; lF; lS];
    [lT; lS; lS; lS; lS; lS; lS; lT];
    [lS; lS; lS; lT; lT; lS; lS; lF];
    [lS; lT; lS; lS; lS; lS; lT; lT];
    [lF; lT; lS; lF; lT; lS; lF; lS] ].

(** The same with one stand left out. *)
Definition grid_less : list (list label) :=
  [ [lF; lS; lT; lF; lS; lT; lF; lS];
    [lT; l_; lS; lS; lS; lS; lS; lT];
    [lS; lS; lS; lT; lT; lS; lS; lF];
    [lS; lT; lS; lS; lS; lS; lT; lT];
    [lF; lT; lS; lF; lT; lS; lF; lS] ].

Definition sol_full : assignment := of_grid grid_full 105.
Definition sol_less : assignment := of_grid grid_less 105.

(** [grid_less] with a twelfth taxiway on the free cell. *)
Definition grid_taxi : list (list label) :=
  [ [lF; lS; lT; lF; lS; lT; lF; lS];
    [lT; lT; lS; lS; lS; lS; lS; lT];
    [lS; lS; lS; lT; lT; lS; lS; lF];
    [lS; lT; lS; lS; lS; lS; lT; lT];
    [lF; lT; lS; lF; lT; lS; lF; lS] ].

(** [grid_less] with a terminal on the free cell. *)
Definition grid_term : list (list label) :=
  [ [lF; lS; lT; lF; lS; lT; lF; lS];
    [lT; Some P; lS; lS; lS; lS; lS; lT];
    [lS; lS; lS; lT; lT; lS; lS; lF];
    [lS; lT; lS; lS; lS; lS; lT; lT];
    [lF; lT; lS; lF; lT; lS; lF; lS] ].

Definition sol_taxi : assignment := of_grid grid_taxi 105.
Definition sol_term : assignment := of_grid grid_term 105.

(** Two taxiways exchanging five units of flow, nothing else. *)
Definition sol_loop : assignment :=
  {| place := fun i c =>
       match c with
       | T => if cell_eqb i (0, 0)%Z || cell_eqb i (0, 1)%Z then 1 else 0
       | _ => 0
       end;
     operations := 0;
     reachable := fun i => if cell_eqb i source then 1 else 0;
     flow_balance := fun _ => 0;
     flow := fun k =>
       if (cell_eqb (fst k) (0, 0)%Z && cell_eqb (snd k) (0, 1)%Z)
          || (cell_eqb (fst k) (0, 1)%Z && cell_eqb (snd k) (0, 0)%Z)
       then 5 else 0 |}.


(** [sol_loop] with the two arcs carrying -5 instead of 5. *)
Definition sol_negative : assignment :=
  {| place := place sol_loop;
     operations := 0;
     reachable := reachable sol_loop;
     flow_balance := fun _ => 0;
     flow := fun k => - flow sol_loop k |}.

(** A pad and a terminal both switched on at the source: not a solution of
    the model, but a value the extraction loop can be run on. *)
Definition sol_clash : assignment :=
  {| place := fun i c =>
       match c with
       | F | P => if cell_eqb i (0, 0)%Z then 1 else 0
       | _ => 0
       end;
     operations := 0;
     reachable := fun i => if cell_eqb i source then 1 else 0;
     flow_balance := fun _ => 0;
     flow := fun _ => 0 |}.

(** ** Solutions derived from a solution *)

(** The same placement and throughput with every flow and flow balance set
    to zero and only the source flagged reachable. *)
Definition without_flow (a : assignment) : assignment :=
  {| place := place a;
     operations := operations a;
     reachable := fun i => if cell_eqb i source then 1 else 0;
     flow_balance := fun _ => 0;
     flow := fun _ => 0 |}.

(** The same solution with other reachability flags. *)
Definition with_reachable (a : assignment) (r : cell -> Q) : assignment :=
  {| place := place a;
     operations := operations a;
     reachable := r;
     flow_balance := flow_balance a;
     flow := flow a |}.

(** ** What the extraction loop leaves at a cell *)

(** The last component, in the order of [components], whose variable
    exceeds 0.5 at the cell. *)
Definition last_chosen (a : assignment) (i : cell) : label :=
  find (fun c => above_half (place a i c)) (rev components).

(** Number of cells of a grid carrying a label. *)
Definition grid_count (g : list (list label)) (c : component) : Z :=
  Z.of_nat (length (filter (fun i => label_eqb (grid_get g i) (Some c)) cells)).

(** ** Layout laws *)

Definition label_cost (x : label) : Z :=
  match x with
  | Some c => cost c
  | None => 0%Z
  end.

(** Cost of a grid, cell by cell. *)
Definition grid_cost (g : list (list label)) : Z :=
  fold_right Z.add 0%Z (map (fun i => label_cost (grid_get g i)) cells).

(** Adjacency, boundary, spacing and budget laws of a grid of labels. *)
Definition lawful (g : list (list label)) : Prop :=
  (forall i c, In i cells -> In c [F; S; P] -> grid_get g i = Some c ->
     exists n, In n (get_neighbors i) /\ grid_get g n = Some T)
  /\ (forall i, In i cells -> grid_get g i = Some F -> interior i = false)
  /\ (forall i j, In i cells -> In j cells ->
        grid_get g i = Some F -> grid_get g j = Some F ->
        i = j \/ (3 <= manhattan i j)%Z)
  /\ (grid_cost g <= budget)%Z.

(** ** Index lists without repetition *)

(** No element of the list occurs twice, for a given equality test. *)
Fixpoint distinctb {A : Type} (eqb : A -> A -> bool) (l : list A) : bool :=
  match l with
  | [] => true
  | x :: r => negb (existsb (eqb x) r) && distinctb eqb r
  end.

Definition key_eqb (k k' : cell * cell) : bool :=
  cell_eqb (fst k) (fst k') && cell_eqb (snd k) (snd k').

(** * Properties *)

(** ** The boolean checker decides feasibility *)

Lemma holdsb_iff (c : constr) : holdsb c = true <-> holds c.
Proof.
  unfold holdsb, holds; destruct (rel c).
  - apply Qle_bool_iff.
  - apply Qle_bool_iff.
  - apply Qeq_bool_iff.
Qed.

Lemma in_domainb_iff (v : vtype) (x : Q) :
  in_domainb v x = true <-> in_domain v x.
Proof.
  destruct v; simpl.
  - rewrite orb_true_iff, !Qeq_bool_iff; tauto.
  - apply Qle_bool_iff.
Qed.

Lemma feasibleb_iff (a : assignment) : feasibleb a = true <-> feasible a.
Proof.
  unfold feasibleb, feasible.
  rewrite andb_true_iff, !forallb_forall, !Forall_forall.
  split; intros [Hv Hc]; split; intros x Hx.
  - apply in_domainb_iff; auto.
  - apply holdsb_iff; auto.
  - apply in_domainb_iff; auto.
  - apply holdsb_iff; auto.
Qed.

(** ** Reading the rows off a feasible solution *)

Section Rows.

Variable a : assignment.
Hypothesis Hfeas : feasible a.

Lemma row_holds (c : constr) : In c (constraints a) -> holds c.
Proof.
  destruct Hfeas as [_ Hc]; rewrite Forall_forall in Hc; auto.
Qed.

Lemma var_in_domain (v : vtype) (x : Q) :
  In (v, x) (variables a) -> in_domain v x.
Proof.
  destruct Hfeas as [Hv _]; rewrite Forall_forall in Hv.
  intro H; apply (Hv _ H).
Qed.

Lemma place_binary (i : cell) (c : component) :
  In i cells -> place a i c == 0 \/ place a i c == 1.
Proof.
  intro Hi; apply (var_in_domain BINARY).
  unfold variables; apply in_or_app; left.
  apply in_flat_map; exists i; split; [assumption|].
  apply in_map_iff; exists c; split; [reflexivity|].
  destruct c; simpl; tauto.
Qed.

Lemma operations_nonneg : 0 <= operations a.
Proof.
  apply (var_in_domain CONTINUOUS).
  unfold variables; apply in_or_app; right; apply in_or_app; left.
  simpl; tauto.
Qed.

Lemma reachable_binary (i : cell) :
  In i cells -> reachable a i == 0 \/ reachable a i == 1.
Proof.
  intro Hi; apply (var_in_domain BINARY).
  unfold variables; do 2 (apply in_or_app; right); apply in_or_app; left.
  apply in_map_iff; exists i; auto.
Qed.

Lemma flow_balance_nonneg (i : cell) : In i cells -> 0 <= flow_balance a i.
Proof.
  intro Hi; apply (var_in_domain CONTINUOUS).
  unfold variables; do 3 (apply in_or_app; right); apply in_or_app; left.
  apply in_map_iff; exists i; auto.
Qed.

Lemma flow_nonneg (k : cell * cell) : In k flow_keys -> 0 <= flow a k.
Proof.
  intro Hk; apply (var_in_domain CONTINUOUS).
  unfold variables; do 4 (apply in_or_app; right).
  apply in_map_iff; exists k; auto.
Qed.

Lemma capacity_rows :
  operations a
    <= (inject_Z fato_capacity / 2) * quicksum (map (fun i => place a i F) cells)
  /\ operations a
    <= inject_Z stand_capacity * quicksum (map (fun i => place a i S) cells).
Proof.
  split.
  - apply (row_holds (Constr _ LE _)).
    unfold constraints; apply in_or_app; left; simpl; left; reflexivity.
  - apply (row_holds (Constr _ LE _)).
    unfold constraints; apply in_or_app; left; simpl; right; left; reflexivity.
Qed.

Lemma budget_row :
  quicksum (flat_map (fun i =>
     map (fun c => inject_Z (cost c) * place a i c) components) cells)
  <= inject_Z budget.
Proof.
  apply (row_holds (Constr _ LE _)).
  unfold constraints; apply in_or_app; right; apply in_or_app; left.
  simpl; left; reflexivity.
Qed.

Lemma exclusivity_row (i : cell) :
  In i cells -> quicksum (map (fun c => place a i c) components) <= 1.
Proof.
  intro Hi; apply (row_holds (Constr _ LE _)).
  unfold constraints; do 2 (apply in_or_app; right); apply in_or_app; left.
  unfold exclusivity_constrs; apply in_map_iff; exists i; auto.
Qed.

Lemma adjacency_row (i : cell) (c : component) :
  In i cells -> In c [F; S; P] ->
  place a i c <= quicksum (map (fun n => place a n T) (get_neighbors i)).
Proof.
  intros Hi Hc; apply (row_holds (Constr _ GE _)).
  unfold constraints; do 3 (apply in_or_app; right); apply in_or_app; left.
  unfold adjacency_constrs; apply in_flat_map; exists i; split; [assumption|].
  apply in_map_iff; exists c; auto.
Qed.

Lemma interior_row (i : cell) :
  In i cells -> interior i = true -> place a i F == 0.
Proof.
  intros Hi Hint; apply (row_holds (Constr _ EQ _)).
  unfold constraints; do 4 (apply in_or_app; right); apply in_or_app; left.
  unfold siting_constrs; apply in_flat_map; exists i; split; [assumption|].
  apply in_or_app; left; rewrite Hint; simpl; auto.
Qed.

Lemma spacing_row (i j : cell) :
  In i cells -> In j (close_cells i) ->
  place a j F <= (1 - place a i F) * inject_Z M.
Proof.
  intros Hi Hj; apply (row_holds (Constr _ LE _)).
  unfold constraints; do 4 (apply in_or_app; right); apply in_or_app; left.
  unfold siting_constrs; apply in_flat_map; exists i; split; [assumption|].
  apply in_or_app; right; apply in_map_iff; exists j; auto.
Qed.

Lemma source_row : reachable a source == 1.
Proof.
  apply (row_holds (Constr _ EQ _)).
  unfold constraints; do 5 (apply in_or_app; right); apply in_or_app; left.
  simpl; auto.
Qed.

Lemma balance_rows (i : cell) :
  In i cells ->
  flow_balance a i == out_flow a i - in_flow a i
  /\ flow_balance a i <= inject_Z M * reachable a i
  /\ - inject_Z M * reachable a i <= flow_balance a i.
Proof.
  intro Hi.
  assert (Hin : forall c,
    In c [ Constr (flow_balance a i) EQ (out_flow a i - in_flow a i);
           Constr (flow_balance a i) LE (inject_Z M * reachable a i);
           Constr (flow_balance a i) GE (- inject_Z M * reachable a i) ] ->
    holds c).
  { intros c Hc; apply row_holds.
    unfold constraints; do 6 (apply in_or_app; right); apply in_or_app; left.
    unfold balance_constrs; apply in_flat_map; exists i; auto. }
  split; [|split].
  - apply (Hin (Constr _ EQ _)); simpl; auto.
  - apply (Hin (Constr _ LE _)); simpl; auto.
  - apply (Hin (Constr _ GE _)); simpl; auto.
Qed.

Lemma gating_row (k : cell * cell) :
  In k flow_keys -> flow a k <= inject_Z M * place a (fst k) T.
Proof.
  intro Hk; apply (row_holds (Constr _ LE _)).
  unfold constraints; do 7 (apply in_or_app; right).
  unfold gating_constrs; apply in_map_iff; exists k; auto.
Qed.

End Rows.

(** ** Grid topology *)

Local Open Scope Z_scope.

Lemma in_range (n z : Z) : In z (range n) <-> 0 <= z < n.
Proof.
  unfold range; rewrite in_map_iff; split.
  - intros [k [<- Hk]]; apply in_seq in Hk; lia.
  - intros Hz; exists (Z.to_nat z); split; [lia|].
    apply in_seq; lia.
Qed.

Lemma in_cells (i : cell) :
  In i cells <-> (0 <= fst i < rows /\ 0 <= snd i < cols).
Proof.
  unfold cells; rewrite in_flat_map; split.
  - intros [x [Hx Hi]]; apply in_map_iff in Hi; destruct Hi as [y [<- Hy]].
    apply in_range in Hx; apply in_range in Hy; simpl; auto.
  - intros [Hx Hy]; exists (fst i); split; [apply in_range; assumption|].
    apply in_map_iff; exists (snd i); split; [destruct i; reflexivity|].
    apply in_range; assumption.
Qed.

Lemma cell_eqb_eq (i j : cell) : cell_eqb i j = true <-> i = j.
Proof.
  unfold cell_eqb; destruct i as [x y], j as [u v]; simpl.
  rewrite andb_true_iff, !Z.eqb_eq; split.
  - intros [-> ->]; reflexivity.
  - intros [= -> ->]; auto.
Qed.

Lemma in_flow_keys_pair (i j : cell) :
  In (i, j) flow_keys <-> (In i cells /\ In j cells /\ manhattan i j = 1).
Proof.
  unfold flow_keys; rewrite in_flat_map; split.
  - intros [x [Hx Hk]]; apply in_map_iff in Hk.
    destruct Hk as [y [[= -> ->] Hy]]; apply filter_In in Hy.
    destruct Hy as [Hy Hm]; apply Z.eqb_eq in Hm; auto.
  - intros [Hi [Hj Hm]]; exists i; split; [assumption|].
    apply in_map_iff; exists j; split; [reflexivity|].
    apply filter_In; split; [assumption|]; apply Z.eqb_eq; assumption.
Qed.

Lemma in_flow_keys_true (k : cell * cell) :
  in_flow_keys k = true <-> In k flow_keys.
Proof.
  unfold in_flow_keys; rewrite existsb_exists; split.
  - intros [k' [Hk' He]]; apply andb_true_iff in He; destruct He as [H1 H2].
    apply cell_eqb_eq in H1; apply cell_eqb_eq in H2.
    destruct k, k'; simpl in *; subst; assumption.
  - intros Hk; exists k; split; [assumption|].
    apply andb_true_iff; split; apply cell_eqb_eq; reflexivity.
Qed.

Lemma in_if_singleton {A : Type} (b : bool) (x y : A) :
  In y (if b then [x] else []) <-> (b = true /\ x = y).
Proof.
  destruct b; simpl; split.
  - intros [H | []]; auto.
  - intros [_ H]; auto.
  - intros [].
  - intros [H _]; discriminate H.
Qed.

(** [get_neighbors] lists exactly the in-bounds cells at distance 1. *)
Lemma in_get_neighbors (i n : cell) :
  In i cells ->
  In n (get_neighbors i) <-> (In n cells /\ manhattan i n = 1).
Proof.
  intro Hi; apply in_cells in Hi; rewrite in_cells.
  destruct i as [x y], n as [u v]; unfold get_neighbors, manhattan.
  unfold rows, cols in *; simpl fst in *; simpl snd in *.
  rewrite !in_app_iff, !in_if_singleton, !Z.ltb_lt.
  split.
  - intros [[H E] | [[H E] | [[H E] | [H E]]]]; injection E as <- <-; lia.
  - intros [[Hu Hv] Hm].
    assert (Hc : (u = x - 1 /\ v = y) \/ (u = x + 1 /\ v = y)
                 \/ (u = x /\ v = y - 1) \/ (u = x /\ v = y + 1)) by lia.
    destruct Hc as [[-> ->] | [[-> ->] | [[-> ->] | [-> ->]]]].
    + left; split; [lia | reflexivity].
    + right; left; split; [lia | reflexivity].
    + right; right; left; split; [lia | reflexivity].
    + right; right; right; split; [lia | reflexivity].
Qed.

(** [close_cells i] lists exactly the other in-bounds cells within
    distance 2 of [i]. *)
Lemma in_close_cells (i j : cell) :
  In j (close_cells i) <-> (In j cells /\ j <> i /\ manhattan i j <= 2).
Proof.
  rewrite in_cells; unfold close_cells, manhattan.
  destruct i as [x y], j as [u v]; simpl fst; simpl snd.
  rewrite in_flat_map; split.
  - intros [dx [Hdx Hj]]; apply in_flat_map in Hj; destruct Hj as [dy [Hdy Hj]].
    match type of Hj with In _ (if ?b then _ else _) => destruct b eqn:E end;
      [|destruct Hj].
    destruct Hj as [[= <- <-] | []].
    rewrite !andb_true_iff, orb_true_iff, !negb_true_iff in E.
    rewrite !Z.leb_le, !Z.ltb_lt, !Z.eqb_neq in E.
    repeat split; try lia.
    intros [= H1 H2]; lia.
  - intros [[Hu Hv] [Hne Hm]].
    assert (Hne' : u <> x \/ v <> y).
    { destruct (Z.eq_dec u x) as [->|]; [|tauto].
      destruct (Z.eq_dec v y) as [->|]; [|tauto].
      exfalso; apply Hne; reflexivity. }
    exists (u - x); split; [simpl; lia|].
    apply in_flat_map; exists (v - y); split; [simpl; lia|].
    replace (x + (u - x)) with u by lia; replace (y + (v - y)) with v by lia.
    match goal with |- In _ (if ?b then _ else _) => replace b with true end;
      [simpl; auto|].
    symmetry.
    rewrite !andb_true_iff, orb_true_iff, !negb_true_iff.
    rewrite !Z.leb_le, !Z.ltb_lt, !Z.eqb_neq.
    repeat split; lia.
Qed.

Lemma manhattan_sym (i j : cell) : manhattan i j = manhattan j i.
Proof. unfold manhattan; lia. Qed.

(** ** Sums *)

Local Open Scope Q_scope.

Lemma quicksum_cons (x : Q) (l : list Q) : quicksum (x :: l) = x + quicksum l.
Proof. reflexivity. Qed.

Lemma quicksum_app (l l' : list Q) :
  quicksum (l ++ l') == quicksum l + quicksum l'.
Proof.
  induction l as [|x l IH]; simpl.
  - ring.
  - rewrite IH; ring.
Qed.

Lemma quicksum_ext {A : Type} (g h : A -> Q) (l : list A) :
  (forall x, In x l -> g x == h x) ->
  quicksum (map g l) == quicksum (map h l).
Proof.
  induction l as [|x l IH]; intro H; simpl.
  - reflexivity.
  - rewrite (H x) by (left; reflexivity).
    rewrite IH by (intros y Hy; apply H; right; assumption).
    reflexivity.
Qed.

Lemma quicksum_plus {A : Type} (g h : A -> Q) (l : list A) :
  quicksum (map (fun x => g x + h x) l)
  == quicksum (map g l) + quicksum (map h l).
Proof.
  induction l as [|x l IH]; simpl.
  - ring.
  - rewrite IH; ring.
Qed.

Lemma quicksum_minus {A : Type} (g h : A -> Q) (l : list A) :
  quicksum (map (fun x => g x - h x) l)
  == quicksum (map g l) - quicksum (map h l).
Proof.
  induction l as [|x l IH]; simpl.
  - ring.
  - rewrite IH; ring.
Qed.

Lemma quicksum_zero {A : Type} (l : list A) :
  quicksum (map (fun _ => 0) l) == 0.
Proof.
  induction l as [|x l IH]; simpl.
  - reflexivity.
  - rewrite IH; ring.
Qed.

Lemma quicksum_nonneg {A : Type} (g : A -> Q) (l : list A) :
  (forall x, In x l -> 0 <= g x) -> 0 <= quicksum (map g l).
Proof.
  induction l as [|x l IH]; intro H; simpl; rewrite ?quicksum_cons.
  - apply Qle_refl.
  - assert (0 <= g x) by (apply H; left; reflexivity).
    assert (0 <= quicksum (map g l))
      by (apply IH; intros y Hy; apply H; right; assumption).
    lra.
Qed.

(** A sum of non-negative terms that is zero has only zero terms. *)
Lemma quicksum_zero_terms {A : Type} (g : A -> Q) (l : list A) :
  (forall x, In x l -> 0 <= g x) ->
  quicksum (map g l) == 0 ->
  forall x, In x l -> g x == 0.
Proof.
  induction l as [|y l IH]; intros Hpos Hsum x Hx.
  - destruct Hx.
  - simpl in Hsum.
    assert (Hy : 0 <= g y) by (apply Hpos; left; reflexivity).
    assert (Hl : 0 <= quicksum (map g l))
      by (apply quicksum_nonneg; intros z Hz; apply Hpos; right; assumption).
    destruct Hx as [<- | Hx].
    + lra.
    + apply IH; auto.
      * intros z Hz; apply Hpos; right; assumption.
      * lra.
Qed.

(** A sum over the selected elements is a sum of guarded terms. *)
Lemma quicksum_filter {A : Type} (p : A -> bool) (g : A -> Q) (l : list A) :
  quicksum (map g (filter p l))
  == quicksum (map (fun x => if p x then g x else 0) l).
Proof.
  induction l as [|x l IH]; simpl.
  - reflexivity.
  - destruct (p x); simpl; rewrite IH; ring.
Qed.

(** Exchanging two finite sums. *)
Lemma quicksum_swap {A B : Type} (h : A -> B -> Q) (l : list A) (l' : list B) :
  quicksum (map (fun x => quicksum (map (fun y => h x y) l')) l)
  == quicksum (map (fun y => quicksum (map (fun x => h x y) l)) l').
Proof.
  induction l as [|x l IH]; simpl.
  - symmetry; apply quicksum_zero.
  - rewrite IH.
    rewrite (quicksum_plus (fun y => h x y)
               (fun y => quicksum (map (fun x0 => h x0 y) l)) l').
    reflexivity.
Qed.

(** ** Flow conservation over the whole grid *)

(** Every edge is counted once as outflow and once as inflow. *)
Lemma total_out_flow_in_flow (a : assignment) :
  quicksum (map (out_flow a) cells) == quicksum (map (in_flow a) cells).
Proof.
  unfold out_flow, in_flow.
  set (h := fun i j : cell => if in_flow_keys (i, j) then flow a (i, j) else 0).
  transitivity
    (quicksum (map (fun i => quicksum (map (fun j => h i j) cells)) cells)).
  - apply quicksum_ext; intros i _.
    apply (quicksum_filter (fun j => in_flow_keys (i, j))
                           (fun j => flow a (i, j))).
  - rewrite quicksum_swap.
    apply quicksum_ext; intros i _; symmetry.
    apply (quicksum_filter (fun j => in_flow_keys (j, i))
                           (fun j => flow a (j, i))).
Qed.

Lemma total_net_flow_zero (a : assignment) :
  quicksum (map (fun i => out_flow a i - in_flow a i) cells) == 0.
Proof.
  rewrite quicksum_minus, total_out_flow_in_flow; ring.
Qed.

Lemma net_flow_zero (a : assignment) (i : cell) :
  feasible a -> In i cells -> out_flow a i - in_flow a i == 0.
Proof.
  intros Hf Hi.
  apply (quicksum_zero_terms (fun i => out_flow a i - in_flow a i) cells);
    [| apply total_net_flow_zero | assumption].
  intros j Hj.
  destruct (balance_rows a Hf j Hj) as [Heq _].
  rewrite <- Heq; apply flow_balance_nonneg; assumption.
Qed.

(** ** Binary placements *)

Lemma above_half_binary (x : Q) :
  x == 0 \/ x == 1 -> (above_half x = true <-> x == 1).
Proof.
  intros Hb; unfold above_half; rewrite negb_true_iff.
  destruct (Qle_bool x (1 # 2)) eqn:E.
  - apply Qle_bool_iff in E; split; [discriminate|].
    intro H; rewrite H in E; exfalso; revert E; apply Qlt_not_le; reflexivity.
  - split; [intros _ | reflexivity].
    destruct Hb as [H | H]; [|assumption].
    assert (Ht : Qle_bool x (1 # 2) = true)
      by (apply Qle_bool_iff; rewrite H; discriminate).
    rewrite E in Ht; discriminate.
Qed.

Section Exclusive.

Variable a : assignment.
Hypothesis Hfeas : feasible a.
Variable i : cell.
Hypothesis Hi : In i cells.

Lemma above_half_place (c : component) :
  above_half (place a i c) = true <-> place a i c == 1.
Proof. apply above_half_binary, place_binary; assumption. Qed.

(** Exclusivity: two different components are never both placed. *)
Lemma exclusive (c d : component) :
  place a i c == 1 -> place a i d == 1 -> c = d.
Proof.
  intros Hc Hd.
  pose proof (exclusivity_row a Hfeas i Hi) as Hx.
  unfold components in Hx; simpl in Hx.
  assert (HF : 0 <= place a i F)
    by (destruct (place_binary a Hfeas i F Hi) as [H | H]; rewrite H; discriminate).
  assert (HS : 0 <= place a i S)
    by (destruct (place_binary a Hfeas i S Hi) as [H | H]; rewrite H; discriminate).
  assert (HT : 0 <= place a i T)
    by (destruct (place_binary a Hfeas i T Hi) as [H | H]; rewrite H; discriminate).
  assert (HP : 0 <= place a i P)
    by (destruct (place_binary a Hfeas i P Hi) as [H | H]; rewrite H; discriminate).
  destruct c, d; try reflexivity; exfalso; lra.
Qed.

Lemma chosen_spec (c : component) :
  chosen a i = Some c <-> place a i c == 1.
Proof.
  split.
  - intro H; apply find_some in H; destruct H as [_ H].
    apply above_half_place; assumption.
  - intro H; unfold chosen.
    destruct (find (fun c => above_half (place a i c)) components) as [d|] eqn:E.
    + apply find_some in E; destruct E as [_ E].
      apply above_half_place in E.
      f_equal; apply exclusive; assumption.
    + exfalso.
      assert (Hc : In c components) by (destruct c; simpl; tauto).
      pose proof (find_none _ _ E c Hc) as E'; simpl in E'.
      apply above_half_place in H; rewrite H in E'; discriminate.
Qed.

Lemma chosen_none : chosen a i = None <-> forall c, place a i c == 0.
Proof.
  split.
  - intros H c.
    destruct (place_binary a Hfeas i c Hi) as [H0 | H1]; [assumption|].
    apply chosen_spec in H1; rewrite H in H1; discriminate.
  - intro H; destruct (chosen a i) as [c|] eqn:E; [|reflexivity].
    apply chosen_spec in E; rewrite (H c) in E; discriminate.
Qed.

(** The inner loop changes the state at most once. *)
Lemma inner_loop (st : extraction) :
  fold_left (extract_step a i) components st
  = match chosen a i with
    | Some c => {| layout := grid_set (layout st) i (Some c);
                   count := bump c (count st) |}
    | None => st
    end.
Proof.
  destruct (chosen a i) as [c|] eqn:E.
  - apply chosen_spec in E.
    assert (Hoff : forall d, d <> c -> above_half (place a i d) = false).
    { intros d Hd; destruct (above_half (place a i d)) eqn:Ed; [|reflexivity].
      apply above_half_place in Ed; exfalso; apply Hd.
      apply exclusive; assumption. }
    apply above_half_place in E.
    unfold components; simpl; unfold extract_step.
    destruct c; rewrite E, ?Hoff by discriminate; reflexivity.
  - assert (Hoff : forall d, above_half (place a i d) = false).
    { intros d; destruct (above_half (place a i d)) eqn:Ed; [|reflexivity].
      apply above_half_place, chosen_spec in Ed; rewrite E in Ed; discriminate. }
    unfold components; simpl; unfold extract_step.
    rewrite !Hoff; reflexivity.
Qed.

End Exclusive.

(** ** Lists and grids updated in place *)

Lemma length_list_set {A : Type} (n : nat) (x : A) (l : list A) :
  length (list_set n x l) = length l.
Proof.
  revert n; induction l as [|h l IH]; intros [|n]; simpl; auto.
Qed.

Lemma nth_list_set_same {A : Type} (n : nat) (x d : A) (l : list A) :
  (n < length l)%nat -> nth n (list_set n x l) d = x.
Proof.
  revert n; induction l as [|h l IH]; intros [|n] Hn; simpl in *;
    try lia; auto.
  apply IH; lia.
Qed.

Lemma nth_list_set_other {A : Type} (n m : nat) (x d : A) (l : list A) :
  n <> m -> nth m (list_set n x l) d = nth m l d.
Proof.
  revert n m; induction l as [|h l IH]; intros [|n] [|m] Hnm; simpl;
    try reflexivity; try congruence.
  apply IH; congruence.
Qed.

Lemma well_shaped_init : well_shaped (layout extraction_init).
Proof.
  split.
  - reflexivity.
  - intros r Hr.
    do 5 (destruct r as [|r]; [reflexivity|]).
    change (Z.to_nat rows) with 5%nat in Hr; lia.
Qed.

Lemma well_shaped_set (g : list (list label)) (i : cell) (x : label) :
  well_shaped g -> well_shaped (grid_set g i x).
Proof.
  intros [Hl Hr]; unfold grid_set; split.
  - rewrite length_list_set; assumption.
  - intros r Hlt.
    destruct (Nat.eq_dec (Z.to_nat (fst i)) r) as [<- | Hne].
    + rewrite nth_list_set_same by lia.
      rewrite length_list_set; apply Hr; assumption.
    + rewrite nth_list_set_other by assumption; apply Hr; assumption.
Qed.

Lemma grid_get_set_same (g : list (list label)) (i : cell) (x : label) :
  well_shaped g -> In i cells -> grid_get (grid_set g i x) i = x.
Proof.
  intros [Hl Hr] Hi; apply in_cells in Hi; unfold grid_get, grid_set.
  assert (Hx : (Z.to_nat (fst i) < Z.to_nat rows)%nat) by lia.
  rewrite nth_list_set_same by lia.
  apply nth_list_set_same; rewrite Hr by assumption; lia.
Qed.

Lemma grid_get_set_other (g : list (list label)) (i j : cell) (x : label) :
  well_shaped g -> In i cells -> In j cells -> i <> j ->
  grid_get (grid_set g i x) j = grid_get g j.
Proof.
  intros [Hl Hr] Hi Hj Hne; apply in_cells in Hi; apply in_cells in Hj.
  unfold grid_get, grid_set.
  destruct (Nat.eq_dec (Z.to_nat (fst i)) (Z.to_nat (fst j))) as [He | Hd].
  - rewrite He, nth_list_set_same by lia.
    apply nth_list_set_other; intro Hc; apply Hne.
    destruct i, j; simpl in *; f_equal; lia.
  - rewrite nth_list_set_other by assumption; reflexivity.
Qed.

Lemma grid_get_init (i : cell) :
  In i cells -> grid_get (layout extraction_init) i = None.
Proof.
  intro Hi; apply in_cells in Hi; unfold grid_get, extraction_init, layout.
  rewrite nth_repeat_lt by lia.
  apply nth_repeat.
Qed.

(** ** The extraction loop *)

Section Extraction.

Variable a : assignment.
Hypothesis Hfeas : feasible a.

Lemma extract_loop_cons (i : cell) (l : list cell) (st : extraction) :
  extract_loop a (i :: l) st = extract_loop a l (fold_left (extract_step a i) components st).
Proof. reflexivity. Qed.

Lemma place_indicator (i : cell) (c : component) :
  In i cells ->
  place a i c == if label_eqb (chosen a i) (Some c) then 1 else 0.
Proof.
  intro Hi.
  destruct (chosen a i) as [d|] eqn:E.
  - apply (chosen_spec a Hfeas i Hi) in E.
    destruct (label_eqb (Some d) (Some c)) eqn:Ed.
    + assert (d = c) as -> by (destruct d, c; simpl in Ed; congruence).
      assumption.
    + destruct (place_binary a Hfeas i c Hi) as [H | H]; [assumption|].
      rewrite (exclusive a Hfeas i Hi _ _ E H) in Ed.
      destruct c; discriminate.
  - simpl. apply (chosen_none a Hfeas i Hi); assumption.
Qed.

Lemma extract_loop_count (c : component) (l : list cell) (st : extraction) :
  incl l cells ->
  inject_Z (count (extract_loop a l st) c)
  == inject_Z (count st c) + quicksum (map (fun i => place a i c) l).
Proof.
  revert st; induction l as [|i l IH]; intros st Hl.
  - simpl; unfold quicksum; simpl; ring.
  - assert (Hi : In i cells) by (apply Hl; left; reflexivity).
    assert (Hl' : incl l cells) by (intros x Hx; apply Hl; right; assumption).
    rewrite extract_loop_cons, (inner_loop a Hfeas i Hi).
    rewrite IH by assumption.
    simpl map; rewrite quicksum_cons.
    rewrite (place_indicator i c Hi).
    destruct (chosen a i) as [d|]; simpl.
    + unfold bump; destruct d, c; simpl;
        rewrite ?inject_Z_plus; simpl; ring.
    + ring.
Qed.

Lemma extract_loop_layout (l : list cell) (st : extraction) :
  incl l cells -> well_shaped (layout st) ->
  well_shaped (layout (extract_loop a l st))
  /\ forall j, In j cells ->
       grid_get (layout (extract_loop a l st)) j
       = match (if existsb (cell_eqb j) l then chosen a j else None) with
         | Some c => Some c
         | None => grid_get (layout st) j
         end.
Proof.
  revert st; induction l as [|i l IH]; intros st Hl Hw.
  - simpl; split; [assumption | reflexivity].
  - assert (Hi : In i cells) by (apply Hl; left; reflexivity).
    assert (Hl' : incl l cells) by (intros x Hx; apply Hl; right; assumption).
    rewrite extract_loop_cons, (inner_loop a Hfeas i Hi).
    set (st' := match chosen a i with
                | Some c => {| layout := grid_set (layout st) i (Some c);
                               count := bump c (count st) |}
                | None => st
                end).
    assert (Hw' : well_shaped (layout st')).
    { unfold st'; destruct (chosen a i); simpl; [|assumption].
      apply well_shaped_set; assumption. }
    destruct (IH st' Hl' Hw') as [Hshape Hget].
    split; [assumption|].
    intros j Hj; rewrite (Hget j Hj); simpl existsb.
    destruct (existsb (cell_eqb j) l) eqn:El.
    + rewrite orb_true_r.
      destruct (chosen a j) as [d|] eqn:Ej; [reflexivity|].
      unfold st'; destruct (chosen a i) as [c|] eqn:Ei; simpl; [|reflexivity].
      apply grid_get_set_other; auto.
      intros ->; congruence.
    + rewrite orb_false_r.
      destruct (cell_eqb j i) eqn:Eji.
      * apply cell_eqb_eq in Eji; subst j.
        unfold st'; destruct (chosen a i) as [c|]; simpl; [|reflexivity].
        apply grid_get_set_same; assumption.
      * unfold st'; destruct (chosen a i) as [c|]; simpl; [|reflexivity].
        apply grid_get_set_other; auto.
        intros ->.
        assert (cell_eqb j j = true) by (apply cell_eqb_eq; reflexivity).
        congruence.
Qed.

(** Each extracted count is the number of cells where the component is
    placed. *)
Lemma extract_count (c : component) :
  inject_Z (count (extract a) c)
  == quicksum (map (fun i => place a i c) cells).
Proof.
  unfold extract.
  rewrite extract_loop_count by apply incl_refl.
  simpl; ring.
Qed.

(** Each cell of the extracted grid carries the component placed there. *)
Lemma extract_layout (i : cell) :
  In i cells -> grid_get (layout (extract a)) i = chosen a i.
Proof.
  intro Hi.
  unfold extract.
  destruct (extract_loop_layout cells extraction_init (incl_refl _) well_shaped_init)
    as [_ Hget].
  rewrite (Hget i Hi).
  assert (He : existsb (cell_eqb i) cells = true).
  { apply existsb_exists; exists i; split; [assumption|].
    apply cell_eqb_eq; reflexivity. }
  rewrite He; destruct (chosen a i); [reflexivity|].
  apply grid_get_init; assumption.
Qed.

Lemma extract_layout_spec (i : cell) (c : component) :
  In i cells ->
  (grid_get (layout (extract a)) i = Some c <-> place a i c == 1).
Proof.
  intro Hi; rewrite extract_layout by assumption.
  apply chosen_spec; assumption.
Qed.

End Extraction.

(** ** Budget and capacities in terms of the extracted counts *)

Lemma cost_sum_by_component (p : cell -> component -> Q) (l : list cell) :
  quicksum (flat_map (fun i =>
     map (fun c => inject_Z (cost c) * p i c) components) l)
  == quicksum (map (fun c =>
       inject_Z (cost c) * quicksum (map (fun i => p i c) l)) components).
Proof.
  induction l as [|i l IH].
  - unfold components, quicksum; simpl; ring.
  - cbn [flat_map]; rewrite quicksum_app, IH.
    unfold components, quicksum; simpl; ring.
Qed.

Lemma used_money_budget (a : assignment) :
  feasible a -> (used_money (count (extract a)) <= budget)%Z.
Proof.
  intro Hf; rewrite Zle_Qle.
  eapply Qle_trans; [|apply (budget_row a Hf)].
  rewrite cost_sum_by_component.
  pose proof (extract_count a Hf F) as HF.
  pose proof (extract_count a Hf S) as HS.
  pose proof (extract_count a Hf T) as HT.
  pose proof (extract_count a Hf P) as HP.
  unfold used_money, components.
  cbn [map fold_right cost]; unfold quicksum at 1; cbn [map fold_right cost].
  rewrite !inject_Z_plus, !inject_Z_mult.
  rewrite <- HF, <- HS, <- HT, <- HP.
  change (inject_Z 0) with 0.
  change (inject_Z 40000) with 40000.
  change (inject_Z 46000) with 46000.
  change (inject_Z 300000) with 300000.
  lra.
Qed.

Lemma half_fato_capacity : inject_Z fato_capacity / 2 == 15.
Proof. reflexivity. Qed.

(** A sum of 0/1 terms that reaches 1 has a term equal to 1. *)
Lemma quicksum_binary_pos {A : Type} (g : A -> Q) (l : list A) :
  (forall x, In x l -> g x == 0 \/ g x == 1) ->
  1 <= quicksum (map g l) ->
  exists x, In x l /\ g x == 1.
Proof.
  induction l as [|y l IH]; intros Hb Hs.
  - exfalso; revert Hs; apply Qlt_not_le; reflexivity.
  - destruct (Hb y (or_introl eq_refl)) as [H0 | H1].
    + simpl in Hs; rewrite H0 in Hs.
      destruct IH as [x [Hx Hg]].
      * intros x Hx; apply Hb; right; assumption.
      * lra.
      * exists x; split; [right|]; assumption.
    + exists y; split; [left; reflexivity | assumption].
Qed.

Lemma taxiway_neighbor (a : assignment) (i : cell) (c : component) :
  feasible a -> In i cells -> In c [F; S; P] -> place a i c == 1 ->
  exists n, In n (get_neighbors i) /\ place a n T == 1.
Proof.
  intros Hf Hi Hc H1.
  apply (quicksum_binary_pos (fun n => place a n T)).
  - intros n Hn; apply place_binary; [assumption|].
    apply (in_get_neighbors i n Hi) in Hn; tauto.
  - rewrite <- H1; apply adjacency_row; assumption.
Qed.

Lemma no_two_pads (a : assignment) (i j : cell) :
  feasible a -> In i cells -> In j (close_cells i) ->
  ~ (place a i F == 1 /\ place a j F == 1).
Proof.
  intros Hf Hi Hj [H1 H2].
  pose proof (spacing_row a Hf i j Hi Hj) as Hrow.
  rewrite H1, H2 in Hrow; revert Hrow; apply Qlt_not_le; reflexivity.
Qed.

(** ** At most seven pads fit on the rim *)

Lemma in_grid_cells (i : cell) : in_grid i = true <-> In i cells.
Proof.
  rewrite in_cells; unfold in_grid.
  rewrite !andb_true_iff, !Z.leb_le, !Z.ltb_lt; tauto.
Qed.

Lemma closeb_close_cells (i j : cell) :
  closeb i j = true -> In i cells /\ In j (close_cells i).
Proof.
  unfold closeb; rewrite !andb_true_iff, negb_true_iff, Z.leb_le.
  intros [[[Hi Hj] Hne] Hm].
  apply in_grid_cells in Hi; apply in_grid_cells in Hj.
  split; [assumption|].
  apply in_close_cells; repeat split; try assumption.
  intros ->.
  assert (cell_eqb i i = true) by (apply cell_eqb_eq; reflexivity).
  congruence.
Qed.

Section Pads.

Variable a : assignment.
Hypothesis Hfeas : feasible a.

Lemma pad_range (i : cell) : (0 <= pad a i <= 1)%Z.
Proof. unfold pad; destruct (above_half (place a i F)); lia. Qed.

Lemma pad_place (i : cell) : In i cells -> place a i F == inject_Z (pad a i).
Proof.
  intro Hi; unfold pad.
  destruct (above_half (place a i F)) eqn:E.
  - apply (above_half_place a Hfeas i Hi) in E; assumption.
  - destruct (place_binary a Hfeas i F Hi) as [H | H]; [assumption|].
    apply (above_half_place a Hfeas i Hi) in H; congruence.
Qed.

Lemma pad_interior (i : cell) :
  in_grid i && interior i = true -> pad a i = 0%Z.
Proof.
  intro H; apply andb_true_iff in H; destruct H as [Hi Hint].
  apply in_grid_cells in Hi.
  unfold pad; destruct (above_half (place a i F)) eqn:E; [|reflexivity].
  apply (above_half_place a Hfeas i Hi) in E.
  rewrite (interior_row a Hfeas i Hi Hint) in E; discriminate.
Qed.

Lemma pad_pair (i j : cell) : closeb i j = true -> (pad a i + pad a j <= 1)%Z.
Proof.
  intro H; apply closeb_close_cells in H; destruct H as [Hi Hj].
  assert (Hj' : In j cells) by (apply in_close_cells in Hj; tauto).
  pose proof (no_two_pads a i j Hfeas Hi Hj) as Hno.
  unfold pad.
  destruct (above_half (place a i F)) eqn:Ei;
    destruct (above_half (place a j F)) eqn:Ej; try lia.
  exfalso; apply Hno; split.
  - apply (above_half_place a Hfeas i Hi); assumption.
  - apply (above_half_place a Hfeas j Hj'); assumption.
Qed.

(** Three cells that are pairwise close hold at most one pad. *)
Lemma pad_window (i j k : cell) :
  closeb i j && closeb j k && closeb i k = true ->
  (pad a i + pad a j + pad a k <= 1)%Z.
Proof.
  intro H; apply andb_true_iff in H; destruct H as [H Hik].
  apply andb_true_iff in H; destruct H as [Hij Hjk].
  pose proof (pad_pair i j Hij); pose proof (pad_pair j k Hjk).
  pose proof (pad_pair i k Hik).
  pose proof (pad_range i); pose proof (pad_range j); pose proof (pad_range k).
  lia.
Qed.

Lemma pad_sum (l : list cell) :
  incl l cells ->
  quicksum (map (fun i => place a i F) l)
  == inject_Z (fold_right Z.add 0%Z (map (pad a) l)).
Proof.
  induction l as [|i l IH]; intro Hl.
  - reflexivity.
  - cbn [map fold_right]; rewrite quicksum_cons, inject_Z_plus.
    rewrite IH by (intros x Hx; apply Hl; right; assumption).
    rewrite (pad_place i) by (apply Hl; left; reflexivity).
    reflexivity.
Qed.

Ltac pose_interior l :=
  match l with
  | ?i :: ?r => pose proof (pad_interior i eq_refl); pose_interior r
  | _ => idtac
  end.

Ltac pose_windows l :=
  match l with
  | ?i :: ?j :: ?k :: ?r =>
      pose proof (pad_window i j k eq_refl); pose_windows (j :: k :: r)
  | _ => idtac
  end.

(** Walking round the rim, any three consecutive cells hold at most one pad:
    twenty-two windows, each pad in three of them. *)
Lemma pads_at_most_seven :
  (fold_right Z.add 0%Z (map (pad a) cells) <= 7)%Z.
Proof.
  let l := eval vm_compute in (filter interior cells) in pose_interior l.
  let l := eval vm_compute in (rim ++ firstn 2 rim) in pose_windows l.
  let l := eval vm_compute in cells in change cells with l.
  cbn [map fold_right].
  lia.
Qed.

Lemma operations_bound : operations a <= 105.
Proof.
  destruct (capacity_rows a Hfeas) as [Hc _].
  rewrite (pad_sum cells (incl_refl _)) in Hc.
  pose proof pads_at_most_seven as H7.
  rewrite Zle_Qle in H7.
  rewrite half_fato_capacity in Hc.
  change (inject_Z 7) with 7 in H7.
  lra.
Qed.

End Pads.

Lemma sol_full_optimal : optimal sol_full.
Proof.
  split.
  - apply feasibleb_iff; vm_compute; reflexivity.
  - intros b Hb; apply operations_bound; assumption.
Qed.

Lemma sol_less_optimal : optimal sol_less.
Proof.
  split.
  - apply feasibleb_iff; vm_compute; reflexivity.
  - intros b Hb; apply operations_bound; assumption.
Qed.

Lemma sol_taxi_optimal : optimal sol_taxi.
Proof.
  split.
  - apply feasibleb_iff; vm_compute; reflexivity.
  - intros b Hb; apply operations_bound; assumption.
Qed.

Lemma sol_term_optimal : optimal sol_term.
Proof.
  split.
  - apply feasibleb_iff; vm_compute; reflexivity.
  - intros b Hb; apply operations_bound; assumption.
Qed.

(** ** Connectivity *)

Lemma manhattan_around (u v : cell) : manhattan u v = 1%Z -> In u (around v).
Proof.
  destruct u as [x y], v as [p q]; unfold manhattan, around; simpl.
  intro H.
  assert (Hc : ((x = p - 1 /\ y = q) \/ (x = p + 1 /\ y = q)
               \/ (x = p /\ y = q - 1) \/ (x = p /\ y = q + 1))%Z) by lia.
  destruct Hc as [[-> ->] | [[-> ->] | [[-> ->] | [-> ->]]]]; tauto.
Qed.

Lemma connected_inv (a : assignment) (v : cell) :
  connected a v ->
  v = source
  \/ exists u, connected a u /\ passable a u = true /\ In u (around v).
Proof.
  intro H; destruct H as [| u v Hu Hp Hm]; [left; reflexivity | right].
  exists u; split; [assumption | split].
  - unfold passable; apply orb_true_iff.
    destruct Hp as [-> | Hp]; [left; apply cell_eqb_eq; reflexivity | right].
    apply Qeq_bool_iff; assumption.
  - apply manhattan_around; assumption.
Qed.

(** A cell none of whose surrounding cells is passable is cut off. *)
Lemma cut_off (a : assignment) (v : cell) :
  cell_eqb v source = false ->
  existsb (passable a) (around v) = false ->
  ~ connected a v.
Proof.
  intros Hs Hx Hc; apply connected_inv in Hc.
  destruct Hc as [-> | [u [_ [Hp Hu]]]].
  - assert (cell_eqb source source = true) by (apply cell_eqb_eq; reflexivity).
    congruence.
  - assert (existsb (passable a) (around v) = true)
      by (apply existsb_exists; exists u; auto).
    congruence.
Qed.

(** ** Optimal solutions *)

Lemma count_pads (a : assignment) :
  feasible a ->
  count (extract a) F = fold_right Z.add 0%Z (map (pad a) cells).
Proof.
  intro Hf; apply inject_Z_injective.
  rewrite (extract_count a Hf F).
  apply (pad_sum a Hf cells (incl_refl _)).
Qed.

Lemma optimal_value (x : assignment) : optimal x -> operations x == 105.
Proof.
  intros [Hf Hmax]; apply Qle_antisym.
  - apply operations_bound; assumption.
  - apply (Hmax sol_full), sol_full_optimal.
Qed.

Lemma optimal_counts (x : assignment) :
  optimal x ->
  (count (extract x) F = 7 /\ 18 <= count (extract x) S)%Z.
Proof.
  intro Ho; pose proof (optimal_value x Ho) as Hops; destruct Ho as [Hf _].
  destruct (capacity_rows x Hf) as [HF HS].
  rewrite <- (extract_count x Hf F), half_fato_capacity, Hops in HF.
  rewrite <- (extract_count x Hf S), Hops in HS.
  change 105 with (inject_Z 105) in HF, HS.
  change 15 with (inject_Z 15) in HF.
  change (inject_Z stand_capacity) with (inject_Z 6) in HS.
  rewrite <- inject_Z_mult, <- Zle_Qle in HF, HS.
  assert (H7 : (count (extract x) F <= 7)%Z)
    by (rewrite (count_pads x Hf); apply pads_at_most_seven; assumption).
  split; lia.
Qed.

(** * Statements of the specification *)

(** C1.  The claim asks that in every feasible solution each cell bearing a
    component is linked to the source (0,0) through taxiway cells.  The
    rows posted "for connectivity" do not enforce it: [sol_full] is
    optimal, so the solver may return it, yet its taxiway at (4,4) has no
    taxiway or source next to it, and the pad at (4,3), whose only taxiway
    neighbour is (4,4), is cut off as well. *)
Theorem C1_optimal_layout_with_island :
  optimal sol_full
  /\ place sol_full (4, 4)%Z T == 1
  /\ ~ connected sol_full (4, 4)%Z
  /\ place sol_full (4, 3)%Z F == 1
  /\ ~ connected sol_full (4, 3)%Z.
Proof.
  assert (H44 : ~ connected sol_full (4, 4)%Z)
    by (apply cut_off; vm_compute; reflexivity).
  split; [apply sol_full_optimal|].
  split; [reflexivity|].
  split; [assumption|].
  split; [reflexivity|].
  intro Hc; apply connected_inv in Hc.
  destruct Hc as [Hc | [u [Hu [Hp Hin]]]]; [discriminate Hc|].
  simpl in Hin.
  destruct Hin as [<- | [<- | [<- | [<- | []]]]];
    try (vm_compute in Hp; discriminate Hp).
  apply H44; assumption.
Qed.

(** C2 (as stated, refuted).  The claim calls the flow variables signed.
    They are created with gurobipy's default lower bound 0: giving the two
    arcs of [sol_loop] the value -5 satisfies every posted row and still is
    no solution, and no feasible solution has a negative flow anywhere. *)
Lemma C2_flow_is_not_signed :
  forallb holdsb (constraints sol_negative) = true
  /\ flow sol_negative ((0, 0), (0, 1))%Z == - (5)
  /\ feasibleb sol_negative = false
  /\ ~ (exists a k, feasible a /\ In k flow_keys /\ flow a k < 0).
Proof.
  split; [vm_compute; reflexivity|].
  split; [reflexivity|].
  split; [vm_compute; reflexivity|].
  intros [a [k [Hf [Hk Hneg]]]].
  pose proof (flow_nonneg a Hf k Hk) as H0.
  revert H0; apply Qlt_not_le; assumption.
Qed.

(** C2 (amended).  The flow variables exist exactly for the ordered pairs of
    grid cells at Manhattan distance 1; each is a non-negative continuous
    variable with 0 <= flow(i->j) <= M * place(i,'T') <= M = 1000 in every
    feasible solution, hence zero when the tail cell holds no taxiway. *)
Theorem C2_flow_gated (a : assignment) (k : cell * cell)
        (Hf : feasible a) (Hk : In k flow_keys) :
  (forall i j, In (i, j) flow_keys
               <-> (In i cells /\ In j cells /\ manhattan i j = 1%Z))
  /\ 0 <= flow a k
  /\ flow a k <= inject_Z M * place a (fst k) T
  /\ flow a k <= 1000
  /\ (place a (fst k) T == 0 -> flow a k == 0).
Proof.
  pose proof (flow_nonneg a Hf k Hk) as H0.
  pose proof (gating_row a Hf k Hk) as Hg.
  assert (Hi : In (fst k) cells).
  { destruct k as [i j]; apply in_flow_keys_pair in Hk; tauto. }
  change (inject_Z M) with 1000 in *.
  split; [exact in_flow_keys_pair|].
  split; [assumption|]; split; [assumption|]; split.
  - destruct (place_binary a Hf (fst k) T Hi) as [H | H];
      rewrite H in Hg; lra.
  - intro H; rewrite H in Hg; lra.
Qed.

Lemma C2_flow_gated_witness :
  feasible sol_loop
  /\ In ((0, 0), (0, 1))%Z flow_keys
  /\ flow sol_loop ((0, 0), (0, 1))%Z == 5
  /\ 0 <= flow sol_loop ((0, 0), (0, 1))%Z
  /\ flow sol_loop ((0, 0), (0, 1))%Z <= 1000.
Proof.
  assert (Hf : feasible sol_loop)
    by (apply feasibleb_iff; vm_compute; reflexivity).
  assert (Hk : In ((0, 0), (0, 1))%Z flow_keys)
    by (apply in_flow_keys_true; vm_compute; reflexivity).
  split; [exact Hf|]; split; [exact Hk|]; split; [reflexivity|].
  pose proof (C2_flow_gated sol_loop ((0, 0), (0, 1))%Z Hf Hk) as H.
  split; [apply H | apply H].
Defined.

(** C3.  In every feasible solution the net flow (outflow minus inflow) of
    every cell is exactly zero, whatever its reachability flag: each
    [flow_balance] variable has the implicit lower bound 0 and equals the
    net flow of its cell, and the net flows of all cells add up to zero. *)
Theorem C3_net_flow_is_zero (a : assignment) (i : cell)
        (Hf : feasible a) (Hi : In i cells) :
  0 <= flow_balance a i
  /\ quicksum (map (fun j => out_flow a j - in_flow a j) cells) == 0
  /\ out_flow a i - in_flow a i == 0
  /\ flow_balance a i == 0.
Proof.
  pose proof (net_flow_zero a i Hf Hi) as Hz.
  destruct (balance_rows a Hf i Hi) as [Heq _].
  split; [apply flow_balance_nonneg; assumption|].
  split; [apply total_net_flow_zero|].
  split; [assumption|].
  rewrite Heq; assumption.
Qed.

Lemma C3_net_flow_is_zero_witness :
  feasible sol_loop
  /\ In source cells
  /\ reachable sol_loop source == 1
  /\ out_flow sol_loop source == 5
  /\ out_flow sol_loop source - in_flow sol_loop source == 0.
Proof.
  assert (Hf : feasible sol_loop)
    by (apply feasibleb_iff; vm_compute; reflexivity).
  assert (Hi : In source cells)
    by (apply in_grid_cells; reflexivity).
  split; [exact Hf|]; split; [exact Hi|].
  split; [reflexivity|]; split; [reflexivity|].
  apply (C3_net_flow_is_zero sol_loop source Hf Hi).
Defined.

(** C4.  In every feasible solution, hence in any produced Layout, the
    operations value is at most (pad capacity / 2) x the number of placed
    pads, where 30 / 2 is exactly 15, and at most the stand capacity 6 x the
    number of placed stands. *)
Theorem C4_throughput_bound (a : assignment) (Hf : feasible a) :
  inject_Z fato_capacity / 2 == 15
  /\ L_throughput (layout_of a)
     <= (inject_Z fato_capacity / 2) * inject_Z (L_count (layout_of a) F)
  /\ L_throughput (layout_of a) <= 15 * inject_Z (L_count (layout_of a) F)
  /\ L_throughput (layout_of a) <= 6 * inject_Z (L_count (layout_of a) S).
Proof.
  destruct (capacity_rows a Hf) as [HF HS].
  unfold layout_of; simpl.
  rewrite !(extract_count a Hf).
  split; [reflexivity|].
  split; [assumption|].
  split; [rewrite <- half_fato_capacity|]; assumption.
Qed.

Lemma C4_throughput_bound_witness :
  feasible sol_full
  /\ L_throughput (layout_of sol_full) == 105
  /\ L_count (layout_of sol_full) F = 7%Z
  /\ L_throughput (layout_of sol_full)
     <= 15 * inject_Z (L_count (layout_of sol_full) F).
Proof.
  assert (Hf : feasible sol_full)
    by (apply feasibleb_iff; vm_compute; reflexivity).
  split; [exact Hf|]; split; [reflexivity|]; split; [reflexivity|].
  apply (C4_throughput_bound sol_full Hf).
Defined.

(** C5.  Two distinct cells at Manhattan distance 1 or 2 never both hold a
    pad in a feasible solution, nor in the Layout extracted from it: the
    row [place(j,'F') <= (1 - place(i,'F')) * M] is posted for every such
    ordered pair. *)
Theorem C5_pad_spacing (a : assignment) (i j : cell)
        (Hf : feasible a) (Hi : In i cells) (Hj : In j cells)
        (Hd : (1 <= manhattan i j <= 2)%Z) :
  In j (close_cells i)
  /\ place a j F <= (1 - place a i F) * inject_Z M
  /\ ~ (place a i F == 1 /\ place a j F == 1)
  /\ ~ (grid_get (layout (extract a)) i = Some F
        /\ grid_get (layout (extract a)) j = Some F).
Proof.
  assert (Hc : In j (close_cells i)).
  { apply in_close_cells; repeat split; try assumption; try lia.
    intros ->; unfold manhattan in Hd; lia. }
  split; [assumption|].
  split; [apply spacing_row; assumption|].
  split; [apply no_two_pads; assumption|].
  intros [H1 H2].
  apply (extract_layout_spec a Hf i F Hi) in H1.
  apply (extract_layout_spec a Hf j F Hj) in H2.
  apply (no_two_pads a i j Hf Hi Hc); split; assumption.
Qed.

Lemma C5_pad_spacing_witness :
  feasible sol_full
  /\ place sol_full (0, 0)%Z F == 1
  /\ ~ (place sol_full (0, 0)%Z F == 1 /\ place sol_full (0, 2)%Z F == 1).
Proof.
  assert (Hf : feasible sol_full)
    by (apply feasibleb_iff; vm_compute; reflexivity).
  split; [exact Hf|]; split; [reflexivity|].
  apply (C5_pad_spacing sol_full (0, 0)%Z (0, 2)%Z Hf).
  - apply in_grid_cells; reflexivity.
  - apply in_grid_cells; reflexivity.
  - vm_compute; split; discriminate.
Defined.

(** C6.  In every feasible solution, hence in any produced Layout, a cell
    holding a pad, a stand or a terminal has a 4-neighbour holding a
    taxiway: per cell and per dependent type the posted row says that the
    taxiway placements of the in-bounds 4-neighbours add up to at least the
    placement of that type at the cell. *)
Theorem C6_taxiway_adjacency (a : assignment) (i : cell) (c : component)
        (Hf : feasible a) (Hi : In i cells) (Hc : In c [F; S; P]) :
  (forall n, In n (get_neighbors i) <-> (In n cells /\ manhattan i n = 1%Z))
  /\ place a i c <= quicksum (map (fun n => place a n T) (get_neighbors i))
  /\ (place a i c == 1 ->
      exists n, In n (get_neighbors i) /\ place a n T == 1)
  /\ (grid_get (layout (extract a)) i = Some c ->
      exists n, In n cells /\ manhattan i n = 1%Z
                /\ grid_get (layout (extract a)) n = Some T).
Proof.
  split; [intro n; apply in_get_neighbors; assumption|].
  split; [apply adjacency_row; assumption|].
  split; [apply taxiway_neighbor; assumption|].
  intro H; apply (extract_layout_spec a Hf i c Hi) in H.
  destruct (taxiway_neighbor a i c Hf Hi Hc H) as [n [Hn Ht]].
  apply (in_get_neighbors i n Hi) in Hn; destruct Hn as [Hn Hm].
  exists n; repeat split; try assumption.
  apply (extract_layout_spec a Hf n T Hn); assumption.
Qed.

Lemma C6_taxiway_adjacency_witness :
  feasible sol_full
  /\ place sol_full (0, 0)%Z F == 1
  /\ exists n, In n (get_neighbors (0, 0)%Z) /\ place sol_full n T == 1.
Proof.
  assert (Hf : feasible sol_full)
    by (apply feasibleb_iff; vm_compute; reflexivity).
  split; [exact Hf|]; split; [reflexivity|].
  apply (C6_taxiway_adjacency sol_full (0, 0)%Z F Hf).
  - apply in_grid_cells; reflexivity.
  - simpl; tauto.
  - reflexivity.
Defined.

(** C7.  For every cell the four binary placement decisions add up to at
    most 1 in every feasible solution; the extraction loop therefore finds
    at most one variable above 0.5 at a cell, and the label of the cell in
    the Layout is that component. *)
Theorem C7_one_component_per_cell (a : assignment) (i : cell)
        (Hf : feasible a) (Hi : In i cells) :
  place a i F + place a i S + place a i T + place a i P <= 1
  /\ (length (filter (fun c => above_half (place a i c)) components) <= 1)%nat
  /\ (forall c, grid_get (layout (extract a)) i = Some c
                <-> place a i c == 1)
  /\ (grid_get (layout (extract a)) i = None
      <-> forall c, place a i c == 0).
Proof.
  split; [|split; [|split]].
  - pose proof (exclusivity_row a Hf i Hi) as H.
    unfold components, quicksum in H; simpl in H; lra.
  - assert (Hx : forall c d, above_half (place a i c) = true ->
                             above_half (place a i d) = true -> c = d).
    { intros c d Hc Hd; apply (exclusive a Hf i Hi);
        apply (above_half_place a Hf i Hi); assumption. }
    unfold components; simpl.
    destruct (above_half (place a i F)) eqn:EF;
      destruct (above_half (place a i S)) eqn:ES;
      destruct (above_half (place a i T)) eqn:ET;
      destruct (above_half (place a i P)) eqn:EP; simpl; try lia;
      exfalso;
      try discriminate (Hx F S EF ES); try discriminate (Hx F T EF ET);
      try discriminate (Hx F P EF EP); try discriminate (Hx S T ES ET);
      try discriminate (Hx S P ES EP); try discriminate (Hx T P ET EP).
  - intro c; apply extract_layout_spec; assumption.
  - rewrite (extract_layout a Hf i Hi); apply chosen_none; assumption.
Qed.

Lemma C7_one_component_per_cell_witness :
  feasible sol_full
  /\ grid_get (layout (extract sol_full)) (1, 0)%Z = Some T
  /\ place sol_full (1, 0)%Z F + place sol_full (1, 0)%Z S
     + place sol_full (1, 0)%Z T + place sol_full (1, 0)%Z P <= 1.
Proof.
  assert (Hf : feasible sol_full)
    by (apply feasibleb_iff; vm_compute; reflexivity).
  split; [exact Hf|]; split; [reflexivity|].
  apply (C7_one_component_per_cell sol_full (1, 0)%Z Hf).
  apply in_grid_cells; reflexivity.
Defined.

(** C8.  For any produced Layout the cost recomputed from the extracted
    counts, 40000 per pad, 46000 per stand, 40000 per taxiway and 300000
    per terminal, never exceeds the budget of 2,000,000. *)
Theorem C8_budget (st : status) (x : assignment) (L : Layout)
        (Hs : solver_contract st x) (HL : produced st x = Some L) :
  L_used L = (40000 * L_count L F + 46000 * L_count L S
              + 40000 * L_count L T + 300000 * L_count L P)%Z
  /\ (L_used L <= 2000000)%Z.
Proof.
  unfold produced in HL.
  destruct (st =? OPTIMAL)%Z eqn:E; [|discriminate].
  apply Z.eqb_eq in E; injection HL as <-.
  destruct (Hs E) as [Hf _].
  split.
  - unfold layout_of, used_money, components; simpl; lia.
  - apply (used_money_budget x Hf).
Qed.

Lemma C8_budget_witness :
  solver_contract OPTIMAL sol_full
  /\ produced OPTIMAL sol_full = Some (layout_of sol_full)
  /\ L_used (layout_of sol_full) = 1732000%Z
  /\ (L_used (layout_of sol_full) <= 2000000)%Z.
Proof.
  assert (Hs : solver_contract OPTIMAL sol_full)
    by (intros _; exact sol_full_optimal).
  split; [exact Hs|]; split; [reflexivity|]; split; [reflexivity|].
  apply (C8_budget OPTIMAL sol_full (layout_of sol_full) Hs eq_refl).
Defined.

Lemma report_unless_optimal (st : status) (x : assignment) :
  st <> OPTIMAL -> report st x = {| trace := []; exit_code := 0%Z |}.
Proof.
  intro Hs; unfold report.
  destruct (st =? OPTIMAL)%Z eqn:E; [|reflexivity].
  apply Z.eqb_eq in E; contradiction.
Qed.

Lemma console_unless_optimal (log : list String.string) (st : status)
      (x : assignment) :
  st <> OPTIMAL -> console log st x = map SolverLog log.
Proof.
  intro Hs; unfold console; rewrite (report_unless_optimal st x Hs).
  apply app_nil_r.
Qed.

(** C9 (as stated, refuted).  The claim has a non-optimal status signalled
    upward as a distinct terminal status.  The script has no [else] branch:
    on an infeasible model and on a timeout it prints nothing of its own,
    writes no file and ends with the same exit code as after an optimal
    solve; what reaches the console is the solver's log and nothing else. *)
Lemma C9_failure_kind_not_signalled :
  INFEASIBLE <> OPTIMAL /\ TIME_LIMIT <> OPTIMAL
  /\ trace (report INFEASIBLE sol_full) = []
  /\ trace (report TIME_LIMIT sol_full) = []
  /\ exit_code (report INFEASIBLE sol_full)
     = exit_code (report OPTIMAL sol_full)
  /\ exit_code (report TIME_LIMIT sol_full)
     = exit_code (report OPTIMAL sol_full)
  /\ (forall log, console log INFEASIBLE sol_full = map SolverLog log)
  /\ (forall log, console log TIME_LIMIT sol_full = map SolverLog log).
Proof.
  split; [discriminate|]; split; [discriminate|].
  split; [reflexivity|]; split; [reflexivity|].
  split; [vm_compute; reflexivity|]; split; [vm_compute; reflexivity|].
  split; intro log; apply console_unless_optimal; discriminate.
Qed.

(** C9 (amended).  Whenever the solver's status is anything other than
    optimal, the program produces no Layout and the script itself emits no
    message, no file and no exit code of its own: it prints nothing, writes
    neither csv file, and ends with the exit code of an optimal run, so the
    console shows the solver's log and nothing from the script. *)
Theorem C9_no_layout_unless_optimal (st : status) (x : assignment)
        (log : list String.string) (Hs : st <> OPTIMAL) :
  produced st x = None
  /\ trace (report st x) = []
  /\ files st x = []
  /\ console log st x = map SolverLog log
  /\ exit_code (report st x) = exit_code (report OPTIMAL x).
Proof.
  assert (E : (st =? OPTIMAL)%Z = false) by (apply Z.eqb_neq; assumption).
  pose proof (report_unless_optimal st x Hs) as Hr.
  split; [unfold produced; rewrite E; reflexivity|].
  split; [rewrite Hr; reflexivity|].
  split; [unfold files; rewrite Hr; reflexivity|].
  split; [apply console_unless_optimal; assumption|].
  rewrite Hr; reflexivity.
Qed.

Lemma C9_no_layout_unless_optimal_witness :
  UNBOUNDED <> OPTIMAL
  /\ produced UNBOUNDED sol_less = None
  /\ trace (report UNBOUNDED sol_less) = []
  /\ console [String.EmptyString] UNBOUNDED sol_less
     = [SolverLog String.EmptyString].
Proof.
  assert (Hs : UNBOUNDED <> OPTIMAL) by discriminate.
  split; [exact Hs|].
  destruct (C9_no_layout_unless_optimal UNBOUNDED sol_less
              [String.EmptyString] Hs) as [Hp [Ht [_ [Hc _]]]].
  split; [exact Hp|]; split; [exact Ht | exact Hc].
Defined.

(** C10 (as stated, refuted).  The claim has two runs on the same
    configuration agree on every per-type count and on the budget used.
    The model has tied optima: [sol_full], [sol_less], [sol_taxi] and
    [sol_term] are all optimal, so any of them may come with status
    optimal, and their Layouts differ in the number of stands, of taxiways
    and of terminals and in the money used; only the pads and the
    throughput agree. *)
Lemma C10_tied_optima_differ :
  solver_contract OPTIMAL sol_full
  /\ solver_contract OPTIMAL sol_less
  /\ solver_contract OPTIMAL sol_taxi
  /\ solver_contract OPTIMAL sol_term
  /\ produced OPTIMAL sol_full = Some (layout_of sol_full)
  /\ produced OPTIMAL sol_less = Some (layout_of sol_less)
  /\ produced OPTIMAL sol_taxi = Some (layout_of sol_taxi)
  /\ produced OPTIMAL sol_term = Some (layout_of sol_term)
  /\ L_count (layout_of sol_full) S = 22%Z
  /\ L_count (layout_of sol_less) S = 21%Z
  /\ L_count (layout_of sol_less) T = 11%Z
  /\ L_count (layout_of sol_taxi) T = 12%Z
  /\ L_count (layout_of sol_less) P = 0%Z
  /\ L_count (layout_of sol_term) P = 1%Z
  /\ L_used (layout_of sol_full) = 1732000%Z
  /\ L_used (layout_of sol_less) = 1686000%Z
  /\ L_count (layout_of sol_full) F = L_count (layout_of sol_less) F
  /\ L_throughput (layout_of sol_full) == L_throughput (layout_of sol_less).
Proof.
  split; [intros _; exact sol_full_optimal|].
  split; [intros _; exact sol_less_optimal|].
  split; [intros _; exact sol_taxi_optimal|].
  split; [intros _; exact sol_term_optimal|].
  split; [reflexivity|]; split; [reflexivity|].
  split; [reflexivity|]; split; [reflexivity|].
  do 9 (split; [vm_compute; reflexivity|]).
  vm_compute; reflexivity.
Qed.

(** C10 (amended).  Two runs on the same configuration that both end with
    status optimal produce Layouts with the same throughput value, 105 for
    the configured grid, and the same number of pads, 7. *)
Theorem C10_throughput_deterministic
        (st1 st2 : status) (x1 x2 : assignment) (L1 L2 : Layout)
        (H1 : solver_contract st1 x1) (H2 : solver_contract st2 x2)
        (P1 : produced st1 x1 = Some L1) (P2 : produced st2 x2 = Some L2) :
  L_throughput L1 == L_throughput L2 /\ L_throughput L1 == 105
  /\ L_count L1 F = L_count L2 F /\ L_count L1 F = 7%Z.
Proof.
  assert (Hopt : forall st x L, solver_contract st x ->
                   produced st x = Some L ->
                   L_throughput L == 105 /\ L_count L F = 7%Z).
  { intros st x L Hs HL; unfold produced in HL.
    destruct (st =? OPTIMAL)%Z eqn:E; [|discriminate].
    apply Z.eqb_eq in E; injection HL as <-.
    pose proof (Hs E) as Ho; unfold layout_of; cbn [L_throughput L_count].
    split; [apply optimal_value; assumption|].
    apply (optimal_counts x Ho). }
  destruct (Hopt st1 x1 L1 H1 P1) as [T1 F1].
  destruct (Hopt st2 x2 L2 H2 P2) as [T2 F2].
  split; [rewrite T1, T2; reflexivity|].
  split; [exact T1|]; split; [congruence | exact F1].
Qed.

Lemma C10_throughput_deterministic_witness :
  solver_contract OPTIMAL sol_full
  /\ solver_contract OPTIMAL sol_term
  /\ L_throughput (layout_of sol_full) == L_throughput (layout_of sol_term)
  /\ L_count (layout_of sol_full) F = L_count (layout_of sol_term) F.
Proof.
  assert (H1 : solver_contract OPTIMAL sol_full)
    by (intros _; exact sol_full_optimal).
  assert (H2 : solver_contract OPTIMAL sol_term)
    by (intros _; exact sol_term_optimal).
  split; [exact H1|]; split; [exact H2|].
  destruct (C10_throughput_deterministic OPTIMAL OPTIMAL sol_full sol_term
              (layout_of sol_full) (layout_of sol_term) H1 H2 eq_refl eq_refl)
    as [Ht [_ [Hf _]]].
  split; [exact Ht | exact Hf].
Defined.

(** * Further properties of the model *)

(** ** Adjacency and distance queries *)

Local Open Scope Z_scope.

Lemma manhattan_refl (i : cell) : manhattan i i = 0.
Proof. unfold manhattan; lia. Qed.

(** X1.  [get_neighbors] is symmetric on the grid and never lists the cell
    itself. *)
Theorem X1_neighbors_symmetric (i n : cell)
        (Hi : In i cells) (Hn : In n cells) :
  (In n (get_neighbors i) <-> In i (get_neighbors n))
  /\ ~ In i (get_neighbors i).
Proof.
  split.
  - rewrite (in_get_neighbors i n Hi), (in_get_neighbors n i Hn).
    rewrite (manhattan_sym n i); tauto.
  - rewrite (in_get_neighbors i i Hi), manhattan_refl.
    intros [_ H]; discriminate H.
Qed.

Lemma X1_neighbors_symmetric_witness :
  In (0, 0) cells /\ In (0, 1) cells
  /\ (In (0, 1) (get_neighbors (0, 0)) <-> In (0, 0) (get_neighbors (0, 1))).
Proof.
  assert (Hi : In (0, 0) cells) by (apply in_grid_cells; reflexivity).
  assert (Hn : In (0, 1) cells) by (apply in_grid_cells; reflexivity).
  split; [exact Hi|]; split; [exact Hn|].
  apply (X1_neighbors_symmetric (0, 0) (0, 1) Hi Hn).
Defined.

(** X2.  A cell of the grid has between two and four neighbours, all
    different; it has four exactly when it is not on the boundary. *)
Theorem X2_neighbors_count (i : cell) (Hi : In i cells) :
  NoDup (get_neighbors i)
  /\ (2 <= length (get_neighbors i) <= 4)%nat
  /\ (length (get_neighbors i) = 4%nat <-> interior i = true).
Proof.
  apply in_cells in Hi; destruct i as [x y]; unfold rows, cols in Hi.
  unfold get_neighbors, interior, rows, cols; simpl fst in *; simpl snd in *.
  destruct (0 <? x) eqn:E1; destruct (x <? 5 - 1) eqn:E2;
    destruct (0 <? y) eqn:E3; destruct (y <? 8 - 1) eqn:E4;
    rewrite ?Z.ltb_lt, ?Z.ltb_ge in *; try lia;
    (split; [| split; [simpl; lia | simpl; split; intro; try lia;
                                    try reflexivity; try discriminate]]);
    repeat constructor; simpl; intro H;
    repeat (destruct H as [H | H]; [injection H; lia|]); exact H.
Qed.

Lemma X2_neighbors_count_witness :
  In (0, 0) cells
  /\ length (get_neighbors (0, 0)) = 2%nat
  /\ NoDup (get_neighbors (0, 0)).
Proof.
  assert (Hi : In (0, 0) cells) by (apply in_grid_cells; reflexivity).
  split; [exact Hi|]; split; [reflexivity|].
  apply (X2_neighbors_count (0, 0) Hi).
Defined.

(** X3.  The index set of [flow] and [get_neighbors] describe the same
    adjacency: [(i, j)] is a flow key exactly when [i] is a cell and [j] one
    of its neighbours.  The index set is symmetric, has no loop [(i, i)],
    and the membership test [(i, j) in flow] agrees with it. *)
Theorem X3_flow_keys_adjacency (i j : cell) :
  (In (i, j) flow_keys <-> (In i cells /\ In j (get_neighbors i)))
  /\ (In (i, j) flow_keys <-> In (j, i) flow_keys)
  /\ ~ In (i, i) flow_keys
  /\ (in_flow_keys (i, j) = true <-> In (i, j) flow_keys).
Proof.
  split; [|split; [|split]].
  - rewrite in_flow_keys_pair; split.
    + intros [Hi [Hj Hm]]; split; [assumption|].
      apply in_get_neighbors; auto.
    + intros [Hi Hj]; apply (in_get_neighbors i j Hi) in Hj; tauto.
  - rewrite !in_flow_keys_pair, (manhattan_sym j i); tauto.
  - rewrite in_flow_keys_pair, manhattan_refl; intros [_ [_ H]]; discriminate H.
  - apply in_flow_keys_true.
Qed.

(** X4.  The spacing query [close_cells] is symmetric, never lists the cell
    itself, stays inside the grid and contains every neighbour of the cell:
    each unordered pair within distance 2 gets its spacing row in both
    directions. *)
Theorem X4_close_cells_symmetric (i j : cell)
        (Hi : In i cells) (Hj : In j cells) :
  (In j (close_cells i) <-> In i (close_cells j))
  /\ ~ In i (close_cells i)
  /\ incl (close_cells i) cells
  /\ incl (get_neighbors i) (close_cells i).
Proof.
  split; [|split; [|split]].
  - rewrite !in_close_cells, (manhattan_sym j i).
    split; intros [_ [Hne Hm]]; repeat split; auto.
  - rewrite in_close_cells; intros [_ [Hne _]]; apply Hne; reflexivity.
  - intros n Hn; apply in_close_cells in Hn; tauto.
  - intros n Hn; apply (in_get_neighbors i n Hi) in Hn; destruct Hn as [Hn Hm].
    apply in_close_cells; repeat split; try assumption; try lia.
    intros ->; rewrite manhattan_refl in Hm; discriminate Hm.
Qed.

Lemma X4_close_cells_symmetric_witness :
  In (0, 0) cells /\ In (1, 1) cells
  /\ In (1, 1) (close_cells (0, 0))
  /\ (In (1, 1) (close_cells (0, 0)) <-> In (0, 0) (close_cells (1, 1))).
Proof.
  assert (Hi : In (0, 0) cells) by (apply in_grid_cells; reflexivity).
  assert (Hj : In (1, 1) cells) by (apply in_grid_cells; reflexivity).
  split; [exact Hi|]; split; [exact Hj|].
  split; [vm_compute; tauto|].
  apply (X4_close_cells_symmetric (0, 0) (1, 1) Hi Hj).
Defined.

(** ** Pads, stands and throughput *)

Local Open Scope Q_scope.

Lemma count_nonneg (a : assignment) (c : component) :
  feasible a -> (0 <= count (extract a) c)%Z.
Proof.
  intro Hf; rewrite Zle_Qle, (extract_count a Hf c).
  apply quicksum_nonneg; intros i Hi.
  destruct (place_binary a Hf i c Hi) as [H | H]; rewrite H; discriminate.
Qed.

(** A term of a sum of non-negative terms is at most the sum. *)
Lemma quicksum_ge_term {A : Type} (g : A -> Q) (l : list A) (x : A) :
  (forall y, In y l -> 0 <= g y) -> In x l -> g x <= quicksum (map g l).
Proof.
  induction l as [|y l IH]; intros Hpos Hx; [destruct Hx|].
  simpl; rewrite ?quicksum_cons.
  assert (Hy : 0 <= g y) by (apply Hpos; left; reflexivity).
  assert (Hl : 0 <= quicksum (map g l))
    by (apply quicksum_nonneg; intros z Hz; apply Hpos; right; assumption).
  destruct Hx as [<- | Hx].
  - lra.
  - assert (g x <= quicksum (map g l))
      by (apply IH; [intros z Hz; apply Hpos; right|]; assumption).
    lra.
Qed.

(** X5.  No pad on an interior cell: in a feasible solution, and in the grid
    extracted from it, a pad lies in row 0, in the last row, in column 0 or
    in the last column. *)
Theorem X5_pads_on_boundary (a : assignment) (i : cell)
        (Hf : feasible a) (Hi : In i cells) :
  (interior i = true -> place a i F == 0)
  /\ (place a i F == 1 ->
      (fst i = 0 \/ fst i = rows - 1 \/ snd i = 0 \/ snd i = cols - 1)%Z)
  /\ (grid_get (layout (extract a)) i = Some F ->
      (fst i = 0 \/ fst i = rows - 1 \/ snd i = 0 \/ snd i = cols - 1)%Z).
Proof.
  assert (Hb : place a i F == 1 ->
    (fst i = 0 \/ fst i = rows - 1 \/ snd i = 0 \/ snd i = cols - 1)%Z).
  { intro H1; destruct (interior i) eqn:E.
    - rewrite (interior_row a Hf i Hi E) in H1; discriminate H1.
    - apply in_cells in Hi; unfold interior in E.
      rewrite !andb_false_iff, !Z.ltb_ge in E; lia. }
  split; [apply interior_row; assumption|].
  split; [assumption|].
  intro H; apply Hb, (extract_layout_spec a Hf i F Hi); assumption.
Qed.

Lemma X5_pads_on_boundary_witness :
  feasible sol_full /\ In (2, 7)%Z cells
  /\ grid_get (layout (extract sol_full)) (2, 7)%Z = Some F
  /\ (2 = 0 \/ 2 = rows - 1 \/ 7 = 0 \/ 7 = cols - 1)%Z.
Proof.
  assert (Hf : feasible sol_full)
    by (apply feasibleb_iff; vm_compute; reflexivity).
  assert (Hi : In (2, 7)%Z cells) by (apply in_grid_cells; reflexivity).
  split; [exact Hf|]; split; [exact Hi|]; split; [reflexivity|].
  destruct (X5_pads_on_boundary sol_full (2, 7)%Z Hf Hi) as [_ [_ H]].
  exact (H eq_refl).
Defined.

(** X6.  A feasible solution has at most seven pads and a throughput of at
    most 105, whatever the budget allows. *)
Theorem X6_at_most_seven_pads (a : assignment) (Hf : feasible a) :
  (count (extract a) F <= 7)%Z /\ operations a <= 105.
Proof.
  split.
  - rewrite (count_pads a Hf); apply pads_at_most_seven; assumption.
  - apply operations_bound; assumption.
Qed.

Lemma X6_at_most_seven_pads_witness :
  feasible sol_full
  /\ count (extract sol_full) F = 7%Z
  /\ operations sol_full == 105
  /\ (count (extract sol_full) F <= 7)%Z.
Proof.
  assert (Hf : feasible sol_full)
    by (apply feasibleb_iff; vm_compute; reflexivity).
  split; [exact Hf|]; split; [reflexivity|]; split; [reflexivity|].
  apply (X6_at_most_seven_pads sol_full Hf).
Defined.

(** X7.  Throughput is never negative; it is zero when no pad or no stand
    is placed, and a positive throughput needs at least one pad, one stand
    and one taxiway, hence at least 126000 spent. *)
Theorem X7_throughput_needs_cluster (a : assignment) (Hf : feasible a) :
  0 <= operations a
  /\ (count (extract a) F = 0%Z \/ count (extract a) S = 0%Z ->
      operations a == 0)
  /\ (0 < operations a ->
      (1 <= count (extract a) F /\ 1 <= count (extract a) S
       /\ 1 <= count (extract a) T
       /\ 126000 <= used_money (count (extract a)))%Z).
Proof.
  pose proof (operations_nonneg a Hf) as H0.
  destruct (capacity_rows a Hf) as [HF HS].
  rewrite <- (extract_count a Hf F), half_fato_capacity in HF.
  rewrite <- (extract_count a Hf S) in HS.
  change (inject_Z stand_capacity) with 6 in HS.
  split; [assumption|]; split.
  - intros [H | H]; rewrite H in *.
    + change (inject_Z 0) with 0 in HF; lra.
    + change (inject_Z 0) with 0 in HS; lra.
  - intro Hpos.
    assert (HcF : (1 <= count (extract a) F)%Z).
    { destruct (Z_le_gt_dec (count (extract a) F) 0) as [Hle | Hgt]; [|lia].
      rewrite Zle_Qle in Hle; change (inject_Z 0) with 0 in Hle; lra. }
    assert (HcS : (1 <= count (extract a) S)%Z).
    { destruct (Z_le_gt_dec (count (extract a) S) 0) as [Hle | Hgt]; [|lia].
      rewrite Zle_Qle in Hle; change (inject_Z 0) with 0 in Hle; lra. }
    assert (HcT : (1 <= count (extract a) T)%Z).
    { assert (Hsum : 1 <= quicksum (map (fun i => place a i F) cells)).
      { rewrite <- (extract_count a Hf F).
        rewrite Zle_Qle in HcF; exact HcF. }
      destruct (quicksum_binary_pos (fun i => place a i F) cells) as [i [Hi H1]];
        [intros i Hi; apply place_binary; assumption | assumption |].
      destruct (taxiway_neighbor a i F Hf Hi) as [n [Hn Ht]];
        [simpl; tauto | assumption |].
      apply (in_get_neighbors i n Hi) in Hn; destruct Hn as [Hn _].
      rewrite Zle_Qle, (extract_count a Hf T).
      change (inject_Z 1) with 1; rewrite <- Ht.
      apply (quicksum_ge_term (fun i => place a i T)); [|assumption].
      intros m Hm.
      destruct (place_binary a Hf m T Hm) as [H | H]; rewrite H; discriminate. }
    pose proof (count_nonneg a P Hf) as HcP.
    repeat split; try assumption.
    unfold used_money, components; cbn [map fold_right cost]; lia.
Qed.

Lemma X7_throughput_needs_cluster_witness :
  feasible sol_full /\ 0 < operations sol_full
  /\ (1 <= count (extract sol_full) T)%Z.
Proof.
  assert (Hf : feasible sol_full)
    by (apply feasibleb_iff; vm_compute; reflexivity).
  split; [exact Hf|]; split; [reflexivity|].
  destruct (X7_throughput_needs_cluster sol_full Hf) as [_ [_ H]].
  apply (H eq_refl).
Defined.

(** X8.  Every Layout the program reports has exactly seven pads, at least
    eighteen stands, at least one taxiway and throughput 105: among tied
    optima the pad count is fixed, the other counts are not. *)
Theorem X8_reported_layout_counts (st : status) (x : assignment) (L : Layout)
        (Hs : solver_contract st x) (HL : produced st x = Some L) :
  L_count L F = 7%Z
  /\ (18 <= L_count L S)%Z
  /\ (1 <= L_count L T)%Z
  /\ L_throughput L == 105.
Proof.
  unfold produced in HL.
  destruct (st =? OPTIMAL)%Z eqn:E; [|discriminate].
  apply Z.eqb_eq in E; injection HL as <-.
  destruct (Hs E) as [Hf Hmax]; unfold layout_of; simpl.
  assert (Hops : operations x == 105).
  { apply Qle_antisym; [apply operations_bound; assumption|].
    apply (Hmax sol_full), sol_full_optimal. }
  destruct (capacity_rows x Hf) as [HF HS].
  rewrite <- (extract_count x Hf F), half_fato_capacity, Hops in HF.
  rewrite <- (extract_count x Hf S), Hops in HS.
  change 105 with (inject_Z 105) in HF, HS.
  change 15 with (inject_Z 15) in HF.
  change (inject_Z stand_capacity) with (inject_Z 6) in HS.
  rewrite <- inject_Z_mult, <- Zle_Qle in HF, HS.
  assert (H7 : (count (extract x) F <= 7)%Z)
    by (rewrite (count_pads x Hf); apply pads_at_most_seven; assumption).
  split; [lia|]; split; [lia|]; split; [|assumption].
  assert (Hpos : 0 < operations x) by (rewrite Hops; reflexivity).
  (* a pad needs a taxiway next to it *)
  assert (Hsum : 1 <= quicksum (map (fun i => place x i F) cells)).
  { rewrite <- (extract_count x Hf F).
    change 1 with (inject_Z 1); rewrite <- Zle_Qle; lia. }
  destruct (quicksum_binary_pos (fun i => place x i F) cells) as [i [Hi H1]];
    [intros i Hi; apply place_binary; assumption | assumption |].
  destruct (taxiway_neighbor x i F Hf Hi) as [n [Hn Ht]];
    [simpl; tauto | assumption |].
  apply (in_get_neighbors i n Hi) in Hn; destruct Hn as [Hn _].
  rewrite Zle_Qle, (extract_count x Hf T).
  change (inject_Z 1) with 1; rewrite <- Ht.
  apply (quicksum_ge_term (fun i => place x i T)); [|assumption].
  intros m Hm.
  destruct (place_binary x Hf m T Hm) as [H | H]; rewrite H; discriminate.
Qed.

Lemma X8_reported_layout_counts_witness :
  solver_contract OPTIMAL sol_less
  /\ produced OPTIMAL sol_less = Some (layout_of sol_less)
  /\ L_count (layout_of sol_less) F = 7%Z
  /\ (18 <= L_count (layout_of sol_less) S)%Z.
Proof.
  assert (Hs : solver_contract OPTIMAL sol_less)
    by (intros _; exact sol_less_optimal).
  split; [exact Hs|]; split; [reflexivity|].
  destruct (X8_reported_layout_counts OPTIMAL sol_less (layout_of sol_less)
              Hs eq_refl) as [H1 [H2 _]].
  split; [exact H1 | exact H2].
Defined.

(** ** The flow block *)

(** Feasibility from the variable domains and the rows, family by family. *)
Lemma feasible_intro (a : assignment) :
  (forall i c, In i cells -> place a i c == 0 \/ place a i c == 1) ->
  0 <= operations a ->
  (forall i, In i cells -> reachable a i == 0 \/ reachable a i == 1) ->
  (forall i, In i cells -> 0 <= flow_balance a i) ->
  (forall k, In k flow_keys -> 0 <= flow a k) ->
  Forall holds (capacity_constrs a) ->
  Forall holds (budget_constrs a) ->
  Forall holds (exclusivity_constrs a) ->
  Forall holds (adjacency_constrs a) ->
  Forall holds (siting_constrs a) ->
  reachable a source == 1 ->
  (forall i, In i cells ->
     flow_balance a i == out_flow a i - in_flow a i
     /\ flow_balance a i <= inject_Z M * reachable a i
     /\ - inject_Z M * reachable a i <= flow_balance a i) ->
  (forall k, In k flow_keys -> flow a k <= inject_Z M * place a (fst k) T) ->
  feasible a.
Proof.
  intros Hp Ho Hr Hb Hfl Hcap Hbud Hexc Hadj Hsit Hsrc Hbal Hgate.
  split.
  - unfold variables.
    apply Forall_app; split;
      [| apply Forall_app; split;
         [| apply Forall_app; split; [| apply Forall_app; split]]].
    + apply Forall_forall; intros v Hv.
      apply in_flat_map in Hv; destruct Hv as [i [Hi Hv]].
      apply in_map_iff in Hv; destruct Hv as [c [<- _]]; simpl; auto.
    + apply Forall_cons; [exact Ho | apply Forall_nil].
    + apply Forall_forall; intros v Hv.
      apply in_map_iff in Hv; destruct Hv as [i [<- Hi]]; simpl; auto.
    + apply Forall_forall; intros v Hv.
      apply in_map_iff in Hv; destruct Hv as [i [<- Hi]]; simpl; auto.
    + apply Forall_forall; intros v Hv.
      apply in_map_iff in Hv; destruct Hv as [k [<- Hk]]; simpl; auto.
  - unfold constraints.
    apply Forall_app; split; [exact Hcap|].
    apply Forall_app; split; [exact Hbud|].
    apply Forall_app; split; [exact Hexc|].
    apply Forall_app; split; [exact Hadj|].
    apply Forall_app; split; [exact Hsit|].
    apply Forall_app; split; [|apply Forall_app; split].
    + apply Forall_cons; [exact Hsrc | apply Forall_nil].
    + apply Forall_forall; intros c Hc.
      apply in_flat_map in Hc; destruct Hc as [i [Hi Hc]].
      destruct (Hbal i Hi) as [H1 [H2 H3]].
      destruct Hc as [<- | [<- | [<- | []]]]; assumption.
    + apply Forall_forall; intros c Hc.
      apply in_map_iff in Hc; destruct Hc as [k [<- Hk]].
      apply Hgate; assumption.
Qed.

Lemma feasible_rows (a : assignment) :
  feasible a ->
  Forall holds (capacity_constrs a)
  /\ Forall holds (budget_constrs a)
  /\ Forall holds (exclusivity_constrs a)
  /\ Forall holds (adjacency_constrs a)
  /\ Forall holds (siting_constrs a).
Proof.
  intros [_ Hc]; unfold constraints in Hc.
  apply Forall_app in Hc; destruct Hc as [H1 Hc].
  apply Forall_app in Hc; destruct Hc as [H2 Hc].
  apply Forall_app in Hc; destruct Hc as [H3 Hc].
  apply Forall_app in Hc; destruct Hc as [H4 Hc].
  apply Forall_app in Hc; destruct Hc as [H5 _].
  split; [exact H1|]; split; [exact H2|]; split; [exact H3|].
  split; [exact H4 | exact H5].
Qed.

Lemma out_flow_zero (a : assignment) (i : cell) :
  feasible a -> In i cells -> place a i T == 0 -> out_flow a i == 0.
Proof.
  intros Hf Hi H0; unfold out_flow.
  rewrite (quicksum_ext _ (fun _ => 0)); [apply quicksum_zero|].
  intros j Hj; apply filter_In in Hj; destruct Hj as [_ Hk].
  apply in_flow_keys_true in Hk.
  pose proof (flow_nonneg a Hf _ Hk) as Hlo.
  pose proof (gating_row a Hf _ Hk) as Hhi.
  simpl fst in Hhi; rewrite H0 in Hhi; lra.
Qed.

Lemma out_flow_without_flow (a : assignment) (i : cell) :
  out_flow (without_flow a) i == 0.
Proof.
  exact (quicksum_zero (filter (fun j => in_flow_keys (i, j)) cells)).
Qed.

Lemma in_flow_without_flow (a : assignment) (i : cell) :
  in_flow (without_flow a) i == 0.
Proof.
  exact (quicksum_zero (filter (fun j => in_flow_keys (j, i)) cells)).
Qed.

(** X9.  Flow runs between taxiways only: in a feasible solution an arc
    carries no flow when its tail or its head holds no taxiway, and a cell
    without a taxiway has neither inflow nor outflow. *)
Theorem X9_flow_between_taxiways (a : assignment) (i j : cell)
        (Hf : feasible a) (Hk : In (i, j) flow_keys) :
  (place a i T == 0 \/ place a j T == 0 -> flow a (i, j) == 0)
  /\ (place a j T == 0 -> in_flow a j == 0 /\ out_flow a j == 0).
Proof.
  assert (Hj : In j cells) by (apply in_flow_keys_pair in Hk; tauto).
  assert (Hin : place a j T == 0 -> in_flow a j == 0 /\ out_flow a j == 0).
  { intro H0; pose proof (out_flow_zero a j Hf Hj H0) as Hout.
    pose proof (net_flow_zero a j Hf Hj) as Hnet.
    split; [lra | assumption]. }
  split; [|assumption].
  intros [H0 | H0].
  - pose proof (flow_nonneg a Hf _ Hk) as Hlo.
    pose proof (gating_row a Hf _ Hk) as Hhi.
    simpl fst in Hhi; rewrite H0 in Hhi; lra.
  - destruct (Hin H0) as [Hz _]; unfold in_flow in Hz.
    apply (quicksum_zero_terms (fun m => flow a (m, j))
             (filter (fun m => in_flow_keys (m, j)) cells)).
    + intros m Hm; apply filter_In in Hm; destruct Hm as [_ Hm].
      apply flow_nonneg; [assumption | apply in_flow_keys_true; assumption].
    + assumption.
    + apply filter_In; split; [apply in_flow_keys_pair in Hk; tauto|].
      apply in_flow_keys_true; assumption.
Qed.

Lemma X9_flow_between_taxiways_witness :
  feasible sol_loop
  /\ In ((0, 1), (0, 2))%Z flow_keys
  /\ place sol_loop (0, 1)%Z T == 1
  /\ place sol_loop (0, 2)%Z T == 0
  /\ flow sol_loop ((0, 1), (0, 2))%Z == 0.
Proof.
  assert (Hf : feasible sol_loop)
    by (apply feasibleb_iff; vm_compute; reflexivity).
  assert (Hk : In ((0, 1), (0, 2))%Z flow_keys)
    by (apply in_flow_keys_true; vm_compute; reflexivity).
  split; [exact Hf|]; split; [exact Hk|].
  split; [reflexivity|]; split; [reflexivity|].
  destruct (X9_flow_between_taxiways sol_loop (0, 1)%Z (0, 2)%Z Hf Hk)
    as [H _].
  apply H; right; reflexivity.
Defined.



(** X11.  Only the source's reachability flag is determined: a feasible
    solution stays feasible under any other choice of 0/1 flags that keeps
    the source at 1, so the flags of the other cells say nothing about the
    placement. *)
Theorem X11_reachable_flags_free (a : assignment) (r : cell -> Q)
        (Hf : feasible a)
        (Hr : forall i, In i cells -> r i == 0 \/ r i == 1)
        (Hs : r source == 1) :
  feasible (with_reachable a r) /\ reachable a source == 1.
Proof.
  split; [|apply source_row; assumption].
  destruct (feasible_rows a Hf) as [H1 [H2 [H3 [H4 H5]]]].
  apply feasible_intro; try assumption.
  - intros i c Hi; apply (place_binary a Hf i c Hi).
  - apply (operations_nonneg a Hf).
  - intros i Hi; apply (flow_balance_nonneg a Hf i Hi).
  - intros k Hk; apply (flow_nonneg a Hf k Hk).
  - intros i Hi; simpl.
    destruct (balance_rows a Hf i Hi) as [Heq _].
    pose proof (net_flow_zero a i Hf Hi) as Hz.
    split; [exact Heq|].
    change (inject_Z M) with 1000.
    destruct (Hr i Hi) as [H | H]; rewrite H, Heq, Hz; split; discriminate.
  - intros k Hk; apply (gating_row a Hf k Hk).
Qed.

Lemma X11_reachable_flags_free_witness :
  feasible sol_full
  /\ reachable sol_full (4, 7)%Z == 0
  /\ feasible (with_reachable sol_full (fun _ => 1)).
Proof.
  assert (Hf : feasible sol_full)
    by (apply feasibleb_iff; vm_compute; reflexivity).
  split; [exact Hf|]; split; [reflexivity|].
  apply (X11_reachable_flags_free sol_full (fun _ => 1) Hf).
  - intros i _; right; reflexivity.
  - reflexivity.
Defined.

(** ** The extraction loop on an arbitrary solution *)

Section AnySolution.

Variable a : assignment.

Lemma inner_loop_any (i : cell) (st : extraction) :
  In i cells -> well_shaped (layout st) ->
  well_shaped (layout (fold_left (extract_step a i) components st))
  /\ (forall j, In j cells ->
        grid_get (layout (fold_left (extract_step a i) components st)) j
        = if cell_eqb j i
          then match last_chosen a i with
               | Some d => Some d
               | None => grid_get (layout st) j
               end
          else grid_get (layout st) j)
  /\ (forall c,
        count (fold_left (extract_step a i) components st) c
        = (count st c + if above_half (place a i c) then 1 else 0)%Z).
Proof.
  intros Hi Hw.
  unfold last_chosen, components; simpl; unfold extract_step.
  destruct (above_half (place a i F)) eqn:EF;
    destruct (above_half (place a i S)) eqn:ES;
    destruct (above_half (place a i T)) eqn:ET;
    destruct (above_half (place a i P)) eqn:EP;
    simpl;
    (split; [repeat apply well_shaped_set; assumption|]);
    (split;
     [ intros j Hj; destruct (cell_eqb j i) eqn:E;
       [ apply cell_eqb_eq in E; subst j;
         rewrite ?grid_get_set_same
           by (repeat apply well_shaped_set; assumption);
         reflexivity
       | assert (Hne : i <> j)
           by (intros ->;
               assert (cell_eqb j j = true) by (apply cell_eqb_eq; reflexivity);
               congruence);
         rewrite ?grid_get_set_other
           by (try (repeat apply well_shaped_set); assumption);
         reflexivity ]
     | intro c; unfold bump; destruct c; rewrite ?EF, ?ES, ?ET, ?EP;
       simpl; lia ]).
Qed.

Lemma extract_loop_any (l : list cell) (st : extraction) :
  incl l cells -> well_shaped (layout st) ->
  well_shaped (layout (extract_loop a l st))
  /\ (forall j, In j cells ->
        grid_get (layout (extract_loop a l st)) j
        = match (if existsb (cell_eqb j) l then last_chosen a j else None) with
          | Some d => Some d
          | None => grid_get (layout st) j
          end)
  /\ (forall c,
        count (extract_loop a l st) c
        = (count st c
           + Z.of_nat (length (filter (fun i => above_half (place a i c)) l)))%Z).
Proof.
  revert st; induction l as [|i l IH]; intros st Hl Hw.
  - split; [exact Hw|]; split; [intros j _; reflexivity|].
    intro c; simpl; lia.
  - assert (Hi : In i cells) by (apply Hl; left; reflexivity).
    assert (Hl' : incl l cells) by (intros x Hx; apply Hl; right; assumption).
    change (extract_loop a (i :: l) st)
      with (extract_loop a l (fold_left (extract_step a i) components st)).
    destruct (inner_loop_any i st Hi Hw) as [Hw' [Hg' Hc']].
    destruct (IH _ Hl' Hw') as [Hw'' [Hg'' Hc'']].
    split; [assumption|]; split.
    + intros j Hj; rewrite (Hg'' j Hj), (Hg' j Hj); simpl existsb.
      destruct (existsb (cell_eqb j) l) eqn:El.
      * rewrite orb_true_r.
        destruct (last_chosen a j) eqn:Ej; [reflexivity|].
        destruct (cell_eqb j i) eqn:E; [|reflexivity].
        apply cell_eqb_eq in E; subst j; rewrite Ej; reflexivity.
      * rewrite orb_false_r.
        destruct (cell_eqb j i) eqn:E; [|reflexivity].
        apply cell_eqb_eq in E; subst j.
        destruct (last_chosen a i); reflexivity.
    + intro c; rewrite (Hc'' c), (Hc' c); simpl filter.
      destruct (above_half (place a i c)); simpl length; lia.
Qed.

End AnySolution.

(** X12.  On any solution, feasible or not, the extraction keeps the grid at
    [rows] x [cols]; a cell gets the last component, in the order F, S, T,
    P, whose variable exceeds 0.5 there, and ['-'] when none does; and each
    count is the number of cells where that component's variable exceeds
    0.5. *)
Theorem X12_extraction_of_any_solution (a : assignment) (i : cell)
        (c : component) (Hi : In i cells) :
  well_shaped (layout (extract a))
  /\ grid_get (layout (extract a)) i = last_chosen a i
  /\ count (extract a) c
     = Z.of_nat (length (filter (fun j => above_half (place a j c)) cells)).
Proof.
  destruct (extract_loop_any a cells extraction_init (incl_refl _)
              well_shaped_init) as [Hw [Hg Hc]].
  split; [exact Hw|]; split.
  - unfold extract; rewrite (Hg i Hi).
    assert (He : existsb (cell_eqb i) cells = true).
    { apply existsb_exists; exists i; split; [assumption|].
      apply cell_eqb_eq; reflexivity. }
    rewrite He; destruct (last_chosen a i); [reflexivity|].
    apply grid_get_init; assumption.
  - unfold extract; rewrite (Hc c); reflexivity.
Qed.

Lemma X12_extraction_of_any_solution_witness :
  In (0, 0)%Z cells
  /\ feasibleb sol_clash = false
  /\ grid_get (layout (extract sol_clash)) (0, 0)%Z = Some P
  /\ count (extract sol_clash) F = 1%Z
  /\ grid_get (layout (extract sol_clash)) (0, 0)%Z
     = last_chosen sol_clash (0, 0)%Z.
Proof.
  assert (Hi : In (0, 0)%Z cells) by (apply in_grid_cells; reflexivity).
  split; [exact Hi|]; split; [vm_compute; reflexivity|].
  split; [vm_compute; reflexivity|]; split; [vm_compute; reflexivity|].
  destruct (X12_extraction_of_any_solution sol_clash (0, 0)%Z F Hi)
    as [_ [H _]].
  exact H.
Defined.

(** ** Counts against the grid *)

Lemma label_eqb_eq (x : label) (c : component) :
  label_eqb x (Some c) = true <-> x = Some c.
Proof.
  destruct x as [d|]; simpl; [|split; discriminate].
  destruct d, c; simpl; split; congruence.
Qed.

(** Labels are exclusive: the cells carrying the four labels are counted
    apart. *)
Lemma labelled_cells_bound (h : cell -> label) (l : list cell) :
  (length (filter (fun i => label_eqb (h i) (Some F)) l)
   + length (filter (fun i => label_eqb (h i) (Some S)) l)
   + length (filter (fun i => label_eqb (h i) (Some T)) l)
   + length (filter (fun i => label_eqb (h i) (Some P)) l)
   <= length l)%nat.
Proof.
  induction l as [|i l IH]; simpl; [lia|].
  destruct (h i) as [[| | |]|]; simpl; lia.
Qed.

(** X13.  For a feasible solution the counts agree with the grid: each
    count is the number of cells of the extracted grid carrying that label,
    and the four counts together never exceed the 40 cells. *)
Theorem X13_counts_match_grid (a : assignment) (c : component)
        (Hf : feasible a) :
  count (extract a) c = grid_count (layout (extract a)) c
  /\ (0 <= count (extract a) c)%Z
  /\ (count (extract a) F + count (extract a) S
      + count (extract a) T + count (extract a) P <= rows * cols)%Z.
Proof.
  assert (Hc : forall d, count (extract a) d = grid_count (layout (extract a)) d).
  { intro d; unfold grid_count.
    destruct (extract_loop_any a cells extraction_init (incl_refl _)
                well_shaped_init) as [_ [_ Hcnt]].
    unfold extract at 1; rewrite (Hcnt d); simpl count; rewrite Z.add_0_l.
    do 2 f_equal; apply filter_ext_in; intros i Hi.
    destruct (label_eqb (grid_get (layout (extract a)) i) (Some d)) eqn:E.
    - apply label_eqb_eq, (extract_layout_spec a Hf i d Hi) in E.
      apply (above_half_place a Hf i Hi); assumption.
    - destruct (above_half (place a i d)) eqn:E'; [|reflexivity].
      apply (above_half_place a Hf i Hi), (extract_layout_spec a Hf i d Hi),
        label_eqb_eq in E'.
      congruence. }
  split; [apply Hc|]; split; [rewrite Hc; unfold grid_count; lia|].
  rewrite !Hc; unfold grid_count.
  pose proof (labelled_cells_bound (grid_get (layout (extract a))) cells) as Hb.
  change (length cells) with 40%nat in Hb.
  change (rows * cols)%Z with 40%Z; lia.
Qed.

Lemma X13_counts_match_grid_witness :
  feasible sol_less
  /\ count (extract sol_less) S = 21%Z
  /\ count (extract sol_less) S = grid_count (layout (extract sol_less)) S.
Proof.
  assert (Hf : feasible sol_less)
    by (apply feasibleb_iff; vm_compute; reflexivity).
  split; [exact Hf|]; split; [vm_compute; reflexivity|].
  apply (X13_counts_match_grid sol_less S Hf).
Defined.

(** ** Which grids the model accepts *)

Lemma feasible_without_flow_intro (a : assignment) :
  (forall i c, In i cells -> place a i c == 0 \/ place a i c == 1) ->
  0 <= operations a ->
  Forall holds (capacity_constrs a) ->
  Forall holds (budget_constrs a) ->
  Forall holds (exclusivity_constrs a) ->
  Forall holds (adjacency_constrs a) ->
  Forall holds (siting_constrs a) ->
  feasible (without_flow a).
Proof.
  intros Hp Ho H1 H2 H3 H4 H5.
  apply feasible_intro; try assumption.
  - intros i _; simpl; destruct (cell_eqb i source);
      [right | left]; reflexivity.
  - intros i _; apply Qle_refl.
  - intros k _; apply Qle_refl.
  - reflexivity.
  - intros i Hi.
    rewrite (out_flow_without_flow a i), (in_flow_without_flow a i).
    cbn [without_flow flow_balance reachable].
    destruct (cell_eqb i source); repeat split; discriminate.
  - intros k Hk; simpl.
    assert (Hi : In (fst k) cells)
      by (destruct k; apply in_flow_keys_pair in Hk; simpl; tauto).
    destruct (Hp (fst k) T Hi) as [H | H]; rewrite H; discriminate.
Qed.

Section OfGrid.

Variable g : list (list label).
Variable ops : Q.

Lemma place_of_grid (i : cell) (c : component) :
  place (of_grid g ops) i c == 1 <-> grid_get g i = Some c.
Proof.
  rewrite <- label_eqb_eq; simpl.
  destruct (label_eqb (grid_get g i) (Some c)); split; intro H;
    try reflexivity; discriminate.
Qed.

Lemma place_of_grid_binary (i : cell) (c : component) :
  place (of_grid g ops) i c == 0 \/ place (of_grid g ops) i c == 1.
Proof.
  simpl; destruct (label_eqb (grid_get g i) (Some c));
    [right | left]; reflexivity.
Qed.

Lemma place_of_grid_nonneg (i : cell) (c : component) :
  0 <= place (of_grid g ops) i c.
Proof.
  destruct (place_of_grid_binary i c) as [H | H]; rewrite H; discriminate.
Qed.

Lemma sum_place_of_grid (c : component) (l : list cell) :
  quicksum (map (fun i => place (of_grid g ops) i c) l)
  == inject_Z (Z.of_nat
       (length (filter (fun i => label_eqb (grid_get g i) (Some c)) l))).
Proof.
  induction l as [|i l IH]; [reflexivity|].
  cbn [map filter]; rewrite quicksum_cons, IH; simpl place.
  destruct (label_eqb (grid_get g i) (Some c)).
  - cbn [length]; rewrite Nat2Z.inj_succ, <- Z.add_1_l, inject_Z_plus.
    reflexivity.
  - ring.
Qed.

Lemma cost_of_grid (l : list cell) :
  quicksum (flat_map (fun i =>
     map (fun c => inject_Z (cost c) * place (of_grid g ops) i c) components) l)
  == inject_Z (fold_right Z.add 0%Z
                 (map (fun i => label_cost (grid_get g i)) l)).
Proof.
  induction l as [|i l IH]; [reflexivity|].
  cbn [flat_map map fold_right]; rewrite quicksum_app, IH, inject_Z_plus.
  apply Qplus_comp; [|reflexivity].
  simpl place; destruct (grid_get g i) as [[| | |]|]; reflexivity.
Qed.

Lemma of_grid_lawful : feasible (of_grid g ops) -> lawful g.
Proof.
  intro Hf; repeat split.
  - intros i c Hi Hc Hl; apply place_of_grid in Hl.
    destruct (taxiway_neighbor _ i c Hf Hi Hc Hl) as [n [Hn Ht]].
    exists n; split; [assumption | apply place_of_grid; assumption].
  - intros i Hi Hl; apply place_of_grid in Hl.
    destruct (interior i) eqn:E; [|reflexivity].
    rewrite (interior_row _ Hf i Hi E) in Hl; discriminate Hl.
  - intros i j Hi Hj Hli Hlj.
    apply place_of_grid in Hli; apply place_of_grid in Hlj.
    destruct (cell_eqb i j) eqn:E; [left; apply cell_eqb_eq; assumption|].
    right; destruct (Z_le_gt_dec (manhattan i j) 2) as [Hm | Hm]; [|lia].
    exfalso; apply (no_two_pads _ i j Hf Hi); [|split; assumption].
    apply in_close_cells; repeat split; try assumption.
    intros ->.
    assert (cell_eqb i i = true) by (apply cell_eqb_eq; reflexivity).
    congruence.
  - unfold grid_cost; rewrite Zle_Qle, <- cost_of_grid.
    apply (budget_row _ Hf).
Qed.

Lemma lawful_of_grid :
  lawful g -> 0 <= ops ->
  ops <= 15 * inject_Z (grid_count g F) ->
  ops <= 6 * inject_Z (grid_count g S) ->
  feasible (of_grid g ops).
Proof.
  intros [Hadj [Hint [Hsp Hbud]]] H0 HF HS.
  change (of_grid g ops) with (without_flow (of_grid g ops)).
  apply feasible_without_flow_intro.
  - intros i c _; apply place_of_grid_binary.
  - exact H0.
  - repeat constructor; unfold holds; cbn [rel lhs rhs operations];
      rewrite sum_place_of_grid.
    + rewrite half_fato_capacity; unfold grid_count in HF; exact HF.
    + change (inject_Z stand_capacity) with 6.
      unfold grid_count in HS; exact HS.
  - repeat constructor; unfold holds; cbn [rel lhs rhs].
    rewrite cost_of_grid, <- Zle_Qle; exact Hbud.
  - apply Forall_forall; intros r Hr.
    apply in_map_iff in Hr; destruct Hr as [i [<- _]].
    unfold holds; cbn [rel lhs rhs]; simpl place.
    destruct (grid_get g i) as [[| | |]|]; discriminate.
  - apply Forall_forall; intros r Hr.
    apply in_flat_map in Hr; destruct Hr as [i [Hi Hr]].
    apply in_map_iff in Hr; destruct Hr as [c [<- Hc]].
    unfold holds; cbn [rel lhs rhs].
    destruct (place_of_grid_binary i c) as [Hz | H1].
    + rewrite Hz; apply quicksum_nonneg; intros n _.
      apply place_of_grid_nonneg.
    + apply place_of_grid in H1 as Hl.
      destruct (Hadj i c Hi Hc Hl) as [n [Hn Ht]].
      apply place_of_grid in Ht; rewrite H1, <- Ht.
      apply (quicksum_ge_term (fun n => place (of_grid g ops) n T));
        [|assumption].
      intros m _; apply place_of_grid_nonneg.
  - apply Forall_forall; intros r Hr.
    apply in_flat_map in Hr; destruct Hr as [i [Hi Hr]].
    apply in_app_or in Hr; destruct Hr as [Hr | Hr].
    + destruct (interior i) eqn:E; [|destruct Hr].
      destruct Hr as [<- | []]; unfold holds; cbn [rel lhs rhs].
      destruct (place_of_grid_binary i F) as [Hz | H1]; [assumption|].
      apply place_of_grid in H1; rewrite (Hint i Hi H1) in E; discriminate E.
    + apply in_map_iff in Hr; destruct Hr as [j [<- Hj]].
      unfold holds; cbn [rel lhs rhs]; change (inject_Z M) with 1000.
      apply in_close_cells in Hj; destruct Hj as [Hj [Hne Hm]].
      destruct (place_of_grid_binary i F) as [Hi0 | Hi1];
        destruct (place_of_grid_binary j F) as [Hj0 | Hj1];
        try (rewrite Hi0); try (rewrite Hi1);
        try (rewrite Hj0); try (rewrite Hj1); try discriminate.
      exfalso; apply place_of_grid in Hi1; apply place_of_grid in Hj1.
      destruct (Hsp i j Hi Hj Hi1 Hj1) as [-> | H3]; [apply Hne; reflexivity|].
      lia.
Qed.

End OfGrid.

(** X14.  The model accepts exactly the lawful grids.  The solution that
    places the labels of a grid, with throughput [ops] and no flow, is
    feasible if and only if the grid obeys the adjacency, boundary, spacing
    and budget laws and [0 <= ops <= 15 x pads] and [ops <= 6 x stands];
    connectivity is not among the conditions. *)
Theorem X14_feasible_grids (g : list (list label)) (ops : Q) :
  feasible (of_grid g ops)
  <-> (lawful g /\ 0 <= ops
       /\ ops <= 15 * inject_Z (grid_count g F)
       /\ ops <= 6 * inject_Z (grid_count g S)).
Proof.
  split.
  - intro Hf; split; [apply (of_grid_lawful g ops Hf)|].
    split; [apply (operations_nonneg _ Hf)|].
    destruct (capacity_rows _ Hf) as [HF HS].
    rewrite sum_place_of_grid in HF, HS.
    rewrite half_fato_capacity in HF.
    change (inject_Z stand_capacity) with 6 in HS.
    cbn [operations of_grid] in HF, HS.
    unfold grid_count; split; [exact HF | exact HS].
  - intros [Hl [H0 [HF HS]]]; apply lawful_of_grid; assumption.
Qed.

(** X15.  Extraction undoes placement: from the solution that places the
    labels of a grid the loop reads back the same label at every cell and
    counts each label as often as the grid carries it. *)
Theorem X15_extract_of_grid (g : list (list label)) (ops : Q)
        (i : cell) (c : component) (Hi : In i cells) :
  grid_get (layout (extract (of_grid g ops))) i = grid_get g i
  /\ count (extract (of_grid g ops)) c = grid_count g c.
Proof.
  destruct (extract_loop_any (of_grid g ops) cells extraction_init
              (incl_refl _) well_shaped_init) as [_ [Hg Hc]].
  split.
  - unfold extract; rewrite (Hg i Hi).
    assert (He : existsb (cell_eqb i) cells = true).
    { apply existsb_exists; exists i; split; [assumption|].
      apply cell_eqb_eq; reflexivity. }
    rewrite He, (grid_get_init i Hi).
    unfold last_chosen; simpl.
    destruct (grid_get g i) as [[| | |]|]; reflexivity.
  - unfold extract; rewrite (Hc c); simpl count; rewrite Z.add_0_l.
    unfold grid_count; do 2 f_equal; apply filter_ext; intro j; simpl.
    destruct (label_eqb (grid_get g j) (Some c)); reflexivity.
Qed.

Lemma X15_extract_of_grid_witness :
  In (1, 1)%Z cells
  /\ grid_get grid_less (1, 1)%Z = None
  /\ grid_get (layout (extract (of_grid grid_less 105))) (1, 1)%Z
     = grid_get grid_less (1, 1)%Z.
Proof.
  assert (Hi : In (1, 1)%Z cells) by (apply in_grid_cells; reflexivity).
  split; [exact Hi|]; split; [reflexivity|].
  apply (X15_extract_of_grid grid_less 105 (1, 1)%Z S Hi).
Defined.

(** ** Taxiways needed *)

Section Dependents.

Variable a : assignment.
Hypothesis Hfeas : feasible a.

Lemma taxiway_nonneg (i : cell) : in_grid i = true -> 0 <= place a i T.
Proof.
  intro Hi; apply in_grid_cells in Hi.
  destruct (place_binary a Hfeas i T Hi) as [H | H]; rewrite H; discriminate.
Qed.

(** A cell holding a pad, a stand or a terminal is covered by the taxiways
    around it. *)
Lemma dependents_row (i : cell) :
  in_grid i = true ->
  place a i F + place a i S + place a i P
  <= quicksum (map (fun n => place a n T) (get_neighbors i)).
Proof.
  intro Hg; pose proof (taxiway_nonneg i Hg) as HT.
  apply in_grid_cells in Hg.
  pose proof (exclusivity_row a Hfeas i Hg) as Hx.
  unfold components, quicksum in Hx; cbn [map fold_right] in Hx.
  pose proof (adjacency_row a Hfeas i F Hg (or_introl eq_refl)) as HF.
  pose proof (adjacency_row a Hfeas i S Hg (or_intror (or_introl eq_refl)))
    as HS.
  pose proof (adjacency_row a Hfeas i P Hg
                (or_intror (or_intror (or_introl eq_refl)))) as HP.
  destruct (place_binary a Hfeas i F Hg) as [BF | BF];
    destruct (place_binary a Hfeas i S Hg) as [BS | BS];
    destruct (place_binary a Hfeas i P Hg) as [BP | BP];
    rewrite BF, BS, BP in *; lra.
Qed.

Ltac pose_dependents l :=
  match l with
  | ?i :: ?r =>
      let H := fresh "Hdep" in
      pose proof (dependents_row i eq_refl) as H;
      let n := eval vm_compute in (get_neighbors i) in
      change (get_neighbors i) with n in H;
      pose proof (taxiway_nonneg i eq_refl);
      pose_dependents r
  | _ => idtac
  end.

(** Every taxiway has at most four cells around it. *)
Lemma dependents_sum :
  quicksum (map (fun i => place a i F) cells)
  + quicksum (map (fun i => place a i S) cells)
  + quicksum (map (fun i => place a i P) cells)
  <= 4 * quicksum (map (fun i => place a i T) cells).
Proof.
  let l := eval vm_compute in cells in
  (pose_dependents l; change cells with l).
  unfold quicksum in *; cbn [map fold_right] in *.
  lra.
Qed.

End Dependents.

(** X16.  A taxiway serves at most the four cells around it: in a feasible
    solution the pads, stands and terminals together number at most four
    times the taxiways. *)
Theorem X16_four_dependents_per_taxiway (a : assignment) (Hf : feasible a) :
  (count (extract a) F + count (extract a) S + count (extract a) P
   <= 4 * count (extract a) T)%Z.
Proof.
  pose proof (dependents_sum a Hf) as H.
  rewrite <- !(extract_count a Hf) in H.
  change 4 with (inject_Z 4) in H.
  rewrite <- !inject_Z_plus, <- inject_Z_mult, <- Zle_Qle in H.
  exact H.
Qed.

Lemma X16_four_dependents_per_taxiway_witness :
  feasible sol_full
  /\ count (extract sol_full) T = 11%Z
  /\ (count (extract sol_full) F + count (extract sol_full) S
      + count (extract sol_full) P <= 4 * count (extract sol_full) T)%Z.
Proof.
  assert (Hf : feasible sol_full)
    by (apply feasibleb_iff; vm_compute; reflexivity).
  split; [exact Hf|]; split; [vm_compute; reflexivity|].
  apply (X16_four_dependents_per_taxiway sol_full Hf).
Defined.

(** X17.  Every Layout the program reports has at least seven taxiways and
    costs between 1,388,000 and the budget of 2,000,000. *)
Theorem X17_reported_layout_minimum (st : status) (x : assignment)
        (L : Layout)
        (Hs : solver_contract st x) (HL : produced st x = Some L) :
  (7 <= L_count L T)%Z /\ (1388000 <= L_used L <= 2000000)%Z.
Proof.
  unfold produced in HL.
  destruct (st =? OPTIMAL)%Z eqn:E; [|discriminate].
  apply Z.eqb_eq in E; injection HL as <-.
  pose proof (Hs E) as Ho; destruct (optimal_counts x Ho) as [H7 H18].
  destruct Ho as [Hf _].
  pose proof (dependents_sum x Hf) as H.
  rewrite <- !(extract_count x Hf) in H.
  change 4 with (inject_Z 4) in H.
  rewrite <- !inject_Z_plus, <- inject_Z_mult, <- Zle_Qle in H.
  pose proof (count_nonneg x P Hf) as HP.
  pose proof (used_money_budget x Hf) as Hb.
  unfold layout_of; cbn [L_count L_used].
  split; [lia|]; split; [|exact Hb].
  unfold used_money, components; cbn [map fold_right cost]; lia.
Qed.

Lemma X17_reported_layout_minimum_witness :
  solver_contract OPTIMAL sol_full
  /\ produced OPTIMAL sol_full = Some (layout_of sol_full)
  /\ (7 <= L_count (layout_of sol_full) T)%Z
  /\ (1388000 <= L_used (layout_of sol_full) <= 2000000)%Z.
Proof.
  assert (Hs : solver_contract OPTIMAL sol_full)
    by (intros _; exact sol_full_optimal).
  split; [exact Hs|]; split; [reflexivity|].
  apply (X17_reported_layout_minimum OPTIMAL sol_full (layout_of sol_full)
           Hs eq_refl).
Defined.

(** X18.  The model always has an optimal solution: the empty grid with
    throughput 0 is feasible, it costs nothing, and a solution of maximal
    throughput exists; an honest solver never finds the model infeasible or
    unbounded. *)
Theorem X18_model_has_optimum :
  feasible (of_grid [] 0)
  /\ (forall c, count (extract (of_grid [] 0)) c = 0%Z)
  /\ used_money (count (extract (of_grid [] 0))) = 0%Z
  /\ (exists x, optimal x)
  /\ (forall x, feasible x -> operations x <= 105).
Proof.
  split; [apply feasibleb_iff; vm_compute; reflexivity|].
  split; [intros []; vm_compute; reflexivity|].
  split; [vm_compute; reflexivity|].
  split; [exists sol_full; exact sol_full_optimal|].
  intros x Hx; apply operations_bound; assumption.
Qed.

(** ** Index lists *)

Lemma distinctb_NoDup {A : Type} (eqb : A -> A -> bool) (l : list A) :
  (forall x y, x = y -> eqb x y = true) ->
  distinctb eqb l = true -> NoDup l.
Proof.
  intro Heq; induction l as [|x r IH]; intro H; [constructor|].
  simpl in H; apply andb_true_iff in H; destruct H as [Hx Hr].
  constructor; [|apply IH; assumption].
  intro Hin; apply negb_true_iff in Hx.
  assert (existsb (eqb x) r = true)
    by (apply existsb_exists; exists x; split; [assumption | apply Heq; reflexivity]).
  congruence.
Qed.

(** X19.  The index lists are sets: [cells] holds each cell of the 5 x 8
    grid once, 40 in all, and the index list of [flow] holds each ordered
    pair of adjacent cells once, 134 in all, so no variable is declared
    twice. *)
Theorem X19_index_lists (i j : cell) :
  (In i cells <-> (0 <= fst i < 5 /\ 0 <= snd i < 8)%Z)
  /\ NoDup cells /\ length cells = 40%nat
  /\ (In (i, j) flow_keys
      <-> (In i cells /\ In j cells /\ manhattan i j = 1%Z))
  /\ NoDup flow_keys /\ length flow_keys = 134%nat.
Proof.
  split; [apply in_cells|].
  split; [apply (distinctb_NoDup cell_eqb);
          [intros x y ->; apply cell_eqb_eq; reflexivity
          | vm_compute; reflexivity]|].
  split; [reflexivity|].
  split; [apply in_flow_keys_pair|].
  split; [|vm_compute; reflexivity].
  apply (distinctb_NoDup key_eqb); [|vm_compute; reflexivity].
  intros x y ->; unfold key_eqb; apply andb_true_iff; split;
    apply cell_eqb_eq; reflexivity.
Qed.
